(** * safe-mem: an in-memory secret store (main.go)

    A shallow embedding of [SecureStore] and of the functions around it.
    Byte slices live in a heap of buffers so that two references to one
    backing array are visible as such; arrays of type [[32]byte] are values
    and are copied on assignment, as in Go.  The block cipher and the AEAD
    come from Go's standard library and are taken through an interface. *)

From Stdlib Require Import ZArith Lia.
From Stdlib.Strings Require Import Byte.
From stdpp Require Import base list strings gmap.

Local Open Scope Z_scope.

(** ** Bytes, slices and the built-ins used by the program *)

Abbreviation byte := Byte.byte.
Abbreviation x00 := Byte.x00.

#[global] Instance byte_eq_dec : EqDecision byte.
Proof. intros a b. destruct (Byte.eqb a b) eqn:E.
  - left. now apply Byte.byte_dec_bl.
  - right. intros ->. now rewrite Byte.byte_dec_lb in E.
Defined.

(** [byte(v)]: conversion of an integer to [uint8] keeps the low 8 bits. *)
Definition byte_of_Z (v : Z) : byte :=
  default x00 (Byte.of_N (Z.to_N (Z.land v 255))).

(** [make([]byte, n)] *)
Definition make (n : nat) : list byte := replicate n x00.

(** [copy(dst, src)]: copies [min(len(dst), len(src))] elements and leaves
    the rest of [dst] as it was. *)
Definition copy (dst src : list byte) : list byte :=
  take (length dst) src ++ drop (length src) dst.

(** [copy(dst[off:], src)], seen from [dst]. *)
Definition copy_at (off : nat) (dst src : list byte) : list byte :=
  take off dst ++ copy (drop off dst) src.

(** [binary.LittleEndian.PutUint64(b, v)]: byte [k] of [b] receives
    [byte(v >> (8*k))], for [k] from 0 to 7. *)
Definition le_bytes64 (v : Z) : list byte :=
  map (fun k => byte_of_Z (Z.shiftr v (8 * Z.of_nat k))) (seq 0 8).

Definition PutUint64 (b : list byte) (v : Z) : list byte :=
  copy b (le_bytes64 (v mod 2 ^ 64)).

(** [stringToBytes]: a fresh slice holding the bytes of the string. *)
Definition stringToBytes (s : string) : list byte :=
  copy (make (String.length s)) (String.list_byte_of_string s).

(** The body of [wipeBytes] and of [wipeKey]:
    [for i := range data { data[i] = 0 }]. *)
Definition zero_loop (data : list byte) : list byte :=
  foldl (fun d i => <[i := x00]> d) data (seq 0 (length data)).

Definition wipeKey (key : list byte) : list byte := zero_loop key.

Definition all_zero (b : list byte) : Prop := Forall (fun x => x = x00) b.

(** ** Errors *)

Inductive error : Type :=
| KeySizeError (n : nat)   (* aes.NewCipher: invalid key size *)
| ErrEntropy (code : nat)  (* an error of rand.Reader *)
| ErrUnexpectedEOF         (* io.ReadFull: the reader ended early *)
| ErrInvalidCiphertext     (* errors.New("invalid ciphertext") *)
| ErrOpen                  (* gcm.Open: message authentication failed *)
| ErrKeyNotFound           (* errors.New("key not found") *)
| ErrCallback (code : nat). (* an error made by the caller's function *)

Inductive result (A : Type) : Type :=
| Ok (a : A)
| Err (e : error).
Arguments Ok {A} a.
Arguments Err {A} e.

(** The first error ends the computation: [if err != nil { return nil, err }]. *)
#[global] Instance result_bind : MBind result := fun A B k r =>
  match r with
  | Ok a => k a
  | Err e => Err e
  end.

(** ** The standard-library collaborators *)

(** What [rand.Reader] delivers to one read: an error, or a run of bytes. *)
Inductive Entropy : Type :=
| EntropyFail (code : nat)
| EntropyBytes (bs : list byte).

(** [io.ReadFull(rand.Reader, buf)] and [rand.Read(buf)]: fill [buf]
    entirely or fail. *)
Definition ReadFull (r : Entropy) (buf : list byte) : result (list byte) :=
  match r with
  | EntropyFail c => Err (ErrEntropy c)
  | EntropyBytes bs =>
      if decide (length buf <= length bs)%nat then Ok (copy buf bs)
      else Err ErrUnexpectedEOF
  end.

(** [cipher.Block] as made by [aes.NewCipher] and [cipher.AEAD] as made by
    [cipher.NewGCM] over it, both indexed by the key they were made from.
    [gcm_Seal] and [gcm_Open] are called with no additional data; [gcm_Seal]
    gives the ciphertext followed by the tag. *)
Class Crypto : Type := {
  aes_Encrypt : list byte -> list byte -> list byte;
  gcm_Seal : list byte -> list byte -> list byte -> list byte;
  gcm_Open : list byte -> list byte -> list byte -> option (list byte);
  gcm_Open_Seal : forall key nonce plaintext : list byte,
    length key = 32%nat -> length nonce = 12%nat ->
    gcm_Open key nonce (gcm_Seal key nonce plaintext) = Some plaintext
}.

Definition aes_BlockSize : nat := 16.
Definition gcm_NonceSize : nat := 12.

(** [aes.NewCipher(key)]: the key must be 16, 24 or 32 bytes long.  The
    block it returns is represented by its key. *)
Definition aes_NewCipher (key : list byte) : result (list byte) :=
  if decide (length key = 16 \/ length key = 24 \/ length key = 32)%nat
  then Ok key else Err (KeySizeError (length key)).

(** [cipher.NewGCM(block)]: fails only for a block size other than 16,
    which an AES block never has. *)
Definition cipher_NewGCM (block : list byte) : result (list byte) := Ok block.

(** ** The store *)

Abbreviation loc := nat.

(** A slice is [nil] or refers to a buffer of the heap. *)
Abbreviation slice := (option loc).

Definition bytes_at (h : list (list byte)) (data : slice) : list byte :=
  match data with
  | Some l => default [] (h !! l)
  | None => []
  end.

(** [heap]: the byte buffers of the process; [gcPercent]: the collector's
    setting ([debug.SetGCPercent]); the other fields are those of
    [SecureStore]. *)
Record State : Type := mkState {
  heap : list (list byte);
  gcPercent : Z;
  masterKey : list byte;
  dataStore : gmap string loc;
  keyCache : gmap string (list byte)
}.

Definition set_heap (h : list (list byte)) (s : State) : State :=
  mkState h (gcPercent s) (masterKey s) (dataStore s) (keyCache s).
Definition set_gcPercent (p : Z) (s : State) : State :=
  mkState (heap s) p (masterKey s) (dataStore s) (keyCache s).
Definition set_masterKey (k : list byte) (s : State) : State :=
  mkState (heap s) (gcPercent s) k (dataStore s) (keyCache s).
Definition set_dataStore (m : gmap string loc) (s : State) : State :=
  mkState (heap s) (gcPercent s) (masterKey s) m (keyCache s).
Definition set_keyCache (m : gmap string (list byte)) (s : State) : State :=
  mkState (heap s) (gcPercent s) (masterKey s) (dataStore s) m.

(** A new buffer, placed after the existing ones. *)
Definition alloc (b : list byte) (s : State) : State * loc :=
  (set_heap (heap s ++ [b]) s, length (heap s)).

(** [wipeBytes(data)]: writes through the slice into its buffer. *)
Definition wipeBytes (data : slice) (s : State) : State :=
  match data with
  | Some l => set_heap (alter zero_loop l (heap s)) s
  | None => s
  end.

Section Store.
Context {crypto : Crypto}.

(** [deriveKey]: the block built for offset [i]. *)
Definition deriveKey_block (id : string) (i : nat) : list byte :=
  let idBytes := stringToBytes id in
  let block := make aes_BlockSize in
  let block := copy block idBytes in
  take 8 block ++ PutUint64 (drop 8 block) (Z.of_nat i).

(** [deriveKey]: [i] takes the values 0 and 16.  The master key has 32
    bytes by its type, so [aes.NewCipher] gives the block keyed by it and
    the error that the code drops cannot occur. *)
Definition deriveKey (s : State) (id : string) : list byte :=
  let h := masterKey s in
  foldl (fun key i =>
           let block := deriveKey_block id i in
           let encrypted := copy (make aes_BlockSize) (aes_Encrypt h block) in
           copy_at i key encrypted)
        (make 32) [0; 16]%nat.

Definition encryptData (r : Entropy) (data key : list byte)
  : result (list byte) :=
  block ← aes_NewCipher key;
  gcm ← cipher_NewGCM block;
  nonce ← ReadFull r (make gcm_NonceSize);
  Ok (nonce ++ gcm_Seal gcm nonce data).

Definition decryptData (encrypted key : list byte) : result (list byte) :=
  block ← aes_NewCipher key;
  gcm ← cipher_NewGCM block;
  let nonceSize := gcm_NonceSize in
  if decide (length encrypted < nonceSize)%nat then Err ErrInvalidCiphertext
  else
    let nonce := take nonceSize encrypted in
    let ciphertext := drop nonceSize encrypted in
    match gcm_Open gcm nonce ciphertext with
    | Some decrypted => Ok decrypted
    | None => Err ErrOpen
    end.

(** [Set(key, data)]; [r] is what the random source gives for the nonce. *)
Definition Set_ (s : State) (key : string) (data : slice) (r : Entropy)
  : State * option error :=
  let itemKey := deriveKey s key in
  match encryptData r (bytes_at (heap s) data) itemKey with
  | Err e => (s, Some e)
  | Ok enc =>
      let '(s1, encrypted) := alloc enc s in
      let s2 := set_dataStore (<[key := encrypted]> (dataStore s1)) s1 in
      let s3 := set_keyCache (<[key := itemKey]> (keyCache s2)) s2 in
      (wipeBytes data s3, None)
  end.

(** [Get(key)]: the plaintext comes in a new buffer. *)
Definition Get (s : State) (key : string) : State * (slice * bool) :=
  match dataStore s !! key with
  | None => (s, (None, false))
  | Some encrypted =>
      match keyCache s !! key with
      | None => (s, (None, false))
      | Some itemKey =>
          match decryptData (bytes_at (heap s) (Some encrypted)) itemKey with
          | Err _ => (s, (None, false))
          | Ok dec =>
              let '(s1, decrypted) := alloc dec s in
              (s1, (Some decrypted, true))
          end
      end
  end.

(** How a call of the caller's function ends. *)
Inductive outcome : Type :=
| Returned (err : option error)
| Panicked (v : nat).

(** The caller's function: from the bytes it is given and the caller's own
    state [U] to the bytes it leaves in the buffer, the caller's new state
    and the way it ends. *)
Definition callback (U : Type) : Type :=
  list byte -> U -> list byte * U * outcome.

(** [GetAndUse(key, fn)].  The deferred [wipeBytes(data)] runs when [fn]
    returns and when it panics; the panic then goes on to the caller. *)
Definition GetAndUse {U : Type} (s : State) (key : string)
    (fn : callback U) (u : U) : State * U * outcome :=
  let '(s1, (data, exists_)) := Get s key in
  if exists_ : bool then
    let plain := bytes_at (heap s1) data in
    let '(after, u', out) := fn plain u in
    let s2 := match data with
              | Some l => set_heap (<[l := copy plain after]> (heap s1)) s1
              | None => s1
              end in
    (wipeBytes data s2, u', out)
  else (s1, u, Returned (Some ErrKeyNotFound)).

(** [Delete], lines 178 to 181. *)
Definition Delete_ciphertext (s : State) (key : string) : State :=
  match dataStore s !! key with
  | Some encrypted =>
      let s1 := wipeBytes (Some encrypted) s in
      set_dataStore (delete key (dataStore s1)) s1
  | None => s
  end.

(** [Delete], lines 183 and 184: [itemKey] is a local array that receives a
    copy of the map's element, and [wipeKey(&itemKey)] writes to that
    local.  The result is the store at that point and the local. *)
Definition Delete_wipeKey (s : State) (key : string)
  : State * option (list byte) :=
  match keyCache s !! key with
  | Some itemKey => (s, Some (wipeKey itemKey))
  | None => (s, None)
  end.

(** [Delete(key)].  The final [runtime.GC()] changes no live buffer. *)
Definition Delete (s : State) (key : string) : State :=
  let s1 := Delete_ciphertext s key in
  let '(s2, itemKey) := Delete_wipeKey s1 key in
  match itemKey with
  | Some _ => set_keyCache (delete key (keyCache s2)) s2
  | None => s2
  end.

(** [Wipe], first loop: one turn for every entry of [dataStore]. *)
Definition Wipe_data (s : State) : State :=
  foldl (fun st '(key, encrypted) =>
           let st1 := wipeBytes (Some encrypted) st in
           set_dataStore (delete key (dataStore st1)) st1)
        s (map_to_list (dataStore s)).

(** [Wipe], second loop: [itemKey] is the loop's own variable. *)
Definition Wipe_keys (s : State) : State :=
  foldl (fun st '(key, itemKey) =>
           let itemKey' := wipeKey itemKey in
           set_keyCache (delete key (keyCache st)) st)
        s (map_to_list (keyCache s)).

(** [Wipe()]: [wipeKey(&s.masterKey)] writes to the field itself. *)
Definition Wipe (s : State) : State :=
  let s1 := Wipe_data s in
  let s2 := Wipe_keys s1 in
  set_masterKey (wipeKey (masterKey s2)) s2.

(** [registerCleanup]: [debug.SetGCPercent(-1)]; the closure it stores is
    [cleanupFunc] below. *)
Definition registerCleanup (s : State) : State := set_gcPercent (-1) s.

(** The closure stored in the field [cleanupFunc]. *)
Definition cleanupFunc (s : State) : State := set_gcPercent 100 (Wipe s).

(** [NewSecureStore()], in a process whose buffers are [h] and whose
    collector setting is [gc]; [r] is what the random source gives for the
    master key. *)
Definition NewSecureStore (h : list (list byte)) (gc : Z) (r : Entropy)
  : result State :=
  mk ← ReadFull r (make 32);
  Ok (registerCleanup (mkState h gc mk ∅ ∅)).

(** ** Callers *)

(** What a caller of the package can do: make a buffer of its own, or call
    one of the exported methods. *)
Inductive Op (U : Type) : Type :=
| OpAlloc (b : list byte)
| OpSet (key : string) (data : slice) (r : Entropy)
| OpGet (key : string)
| OpGetAndUse (key : string) (fn : callback U)
| OpDelete (key : string)
| OpWipe.
Arguments OpAlloc {U} b.
Arguments OpSet {U} key data r.
Arguments OpGet {U} key.
Arguments OpGetAndUse {U} key fn.
Arguments OpDelete {U} key.
Arguments OpWipe {U}.

Definition run_op {U : Type} (su : State * U) (op : Op U) : State * U :=
  let '(s, u) := su in
  match op with
  | OpAlloc b => (fst (alloc b s), u)
  | OpSet key data r => (fst (Set_ s key data r), u)
  | OpGet key => (fst (Get s key), u)
  | OpGetAndUse key fn => let '(s', u', _) := GetAndUse s key fn u in (s', u')
  | OpDelete key => (Delete s key, u)
  | OpWipe => (Wipe s, u)
  end.

(** The states a process can be in after [NewSecureStore] succeeded. *)
Inductive reachable {U : Type} : State * U -> Prop :=
| reachable_new h gc r s u :
    NewSecureStore h gc r = Ok s -> reachable (s, u)
| reachable_step su op :
    reachable su -> reachable (run_op su op).

(** A slice a caller can hold: [nil], or a buffer that exists. *)
Definition live (s : State) (data : slice) : Prop :=
  match data with
  | Some l => (l < length (heap s))%nat
  | None => True
  end.

(** The identifiers of the two mappings are the same. *)
Definition paired (s : State) : Prop :=
  dom (dataStore s) = dom (keyCache s).

(** ** The scenario of [main] *)

Definition x01s (n : nat) : Entropy := EntropyBytes (replicate n Byte.x01).

(** [store, err := NewSecureStore()] in a fresh process. *)
Definition main_new : State :=
  match NewSecureStore [] 100 (x01s 32) with
  | Ok s => s
  | Err _ => mkState [] 100 [] ∅ ∅
  end.

(** [secret := []byte("my_super_secret_password")] *)
Definition main_alloc : State :=
  (alloc (stringToBytes "my_super_secret_password") main_new).1.

(** What [main] passes to [GetAndUse]: it reads the length. *)
Definition main_fn : callback nat :=
  fun data _ => (data, length data, Returned None).

(** [secret := []byte("my_super_secret_password")] and
    [store.Set("password", secret)]. *)
Definition main_store : State :=
  let '(s, secret) := alloc (stringToBytes "my_super_secret_password") main_new in
  fst (Set_ s "password" (Some secret) (x01s 12)).

(** A second [Set] on the same identifier, with a new secret. *)
Definition main_store_again : State :=
  let '(s, secret) := alloc (stringToBytes "another_secret") main_store in
  fst (Set_ s "password" (Some secret) (x01s 12)).

(** A [Set] on a second identifier. *)
Definition main_store_two : State :=
  let '(s, token) := alloc (stringToBytes "api_token") main_store in
  fst (Set_ s "token" (Some token) (x01s 12)).

End Store.

Arguments OpAlloc {U} b.
Arguments OpSet {U} key data r.
Arguments OpGet {U} key.
Arguments OpGetAndUse {U} key fn.
Arguments OpDelete {U} key.
Arguments OpWipe {U}.

(** ** A small instance of the interface, for running the model *)

Definition toy_tag : list byte := replicate 16 Byte.xff.

Definition toy_Open (c : list byte) : option (list byte) :=
  let n := (length c - 16)%nat in
  if decide (drop n c = toy_tag) then Some (take n c) else None.

Definition toy_crypto : Crypto.
Proof.
  refine {| aes_Encrypt := fun key block => reverse block;
            gcm_Seal := fun key nonce p => p ++ toy_tag;
            gcm_Open := fun key nonce c => toy_Open c |}.
  intros key nonce p _ _. unfold toy_Open.
  rewrite length_app. change (length toy_tag) with 16%nat.
  replace (length p + 16 - 16)%nat with (length p) by lia.
  rewrite drop_app_length, take_app_length.
  destruct (decide (toy_tag = toy_tag)); congruence.
Defined.

(** ** Observations *)

Section Observations.
Context {crypto : Crypto}.

(** What [Get(key)] hands to its caller, as bytes: the content of the
    buffer it returns, or nothing when it answers [false]. *)
Definition Get_plain (s : State) (key : string) : option (list byte) :=
  match Get s key with
  | (s1, (sl, true)) => Some (bytes_at (heap s1) sl)
  | (_, (_, false)) => None
  end.

(** [s'] has the store of [s] and the buffers of [s], unchanged, and maybe
    more buffers after them. *)
Definition extends (s s' : State) : Prop :=
  dataStore s' = dataStore s /\ keyCache s' = keyCache s /\
  masterKey s' = masterKey s /\ gcPercent s' = gcPercent s /\
  (length (heap s) <= length (heap s'))%nat /\
  forall l : loc, (l < length (heap s))%nat -> heap s' !! l = heap s !! l.

(** What every call keeps true once a store is made: the collector stays
    suspended, the master key has its 32 bytes, every cached key is the
    one [deriveKey] gives for its identifier, every ciphertext slice
    refers to a buffer that exists, and no two identifiers share one. *)
Definition store_inv (s : State) : Prop :=
  gcPercent s = -1 /\
  length (masterKey s) = 32%nat /\
  (forall (k : string) (key : list byte),
      keyCache s !! k = Some key -> key = deriveKey s k) /\
  (forall (k : string) (l : loc),
      dataStore s !! k = Some l -> (l < length (heap s))%nat) /\
  (forall (k k' : string) (l : loc),
      dataStore s !! k = Some l -> dataStore s !! k' = Some l -> k = k').

End Observations.

(** ** SecureString *)

(** [SecureString]: its only field is the slice [data]. *)
Record SecureString : Type := mkSecureString { data : slice }.

(** [NewSecureString(s)], in a process whose buffers are [h]: the bytes of
    the string go to a new buffer. *)
Definition NewSecureString (str : string) (h : list (list byte))
  : list (list byte) * SecureString :=
  (h ++ [stringToBytes str], mkSecureString (Some (length h))).

(** [ss.Get()]: [string(ss.data)]. *)
Definition SecureString_Get (h : list (list byte)) (ss : SecureString)
  : string :=
  String.string_of_list_byte (bytes_at h (data ss)).

(** [ss.Wipe()]: zeroes the buffer through the slice, then [ss.data = nil]. *)
Definition SecureString_Wipe (h : list (list byte)) (ss : SecureString)
  : list (list byte) * SecureString :=
  (match data ss with
   | Some l => alter zero_loop l h
   | None => h
   end,
   mkSecureString None).

(** ** The program *)

Section Main.
Context {crypto : Crypto}.

(** How [main] ends.  [log.Fatal] leaves the process at once, and the
    deferred [store.Wipe()] does not run; it runs when [main] returns and
    when it panics.  The state is the one the process ends in, if a store
    was made. *)
Inductive main_outcome : Type :=
| MainFatal (e : error) (st : option State)
| MainPanic (v : nat) (st : State)
| MainDone (printed : nat) (st : State).

(** [main()] in a fresh process; [r_key] and [r_nonce] are what the random
    source gives to [NewSecureStore] and to [Set]; [printed] is the number
    that [fmt.Printf] writes. *)
Definition main (r_key r_nonce : Entropy) : main_outcome :=
  match NewSecureStore [] 100 r_key with
  | Err err => MainFatal err None
  | Ok store =>
      let '(s1, secret) :=
        alloc (stringToBytes "my_super_secret_password") store in
      match Set_ s1 "password" (Some secret) r_nonce with
      | (s2, Some err) => MainFatal err (Some s2)
      | (s2, None) =>
          match GetAndUse s2 "password" main_fn 0%nat with
          | (s3, _, Returned (Some err)) => MainFatal err (Some s3)
          | (s3, printed, Returned None) => MainDone printed (Wipe s3)
          | (s3, _, Panicked v) => MainPanic v (Wipe s3)
          end
      end
  end.

End Main.

(** * Properties *)

(** ** Slices *)

Lemma copy_length (dst src : list byte) : length (copy dst src) = length dst.
Proof.
  unfold copy. rewrite length_app, length_take, length_drop. lia.
Qed.

Lemma copy_at_length (off : nat) (dst src : list byte) :
  length (copy_at off dst src) = length dst.
Proof.
  unfold copy_at. rewrite length_app, copy_length, length_take, length_drop. lia.
Qed.

Lemma copy_exact (dst src : list byte) :
  length dst = length src -> copy dst src = src.
Proof.
  intros E. unfold copy. rewrite E, firstn_all, drop_ge by lia. apply app_nil_r.
Qed.

Lemma zero_loop_prefix (data : list byte) (n : nat) :
  (n <= length data)%nat ->
  foldl (fun d i => <[i := x00]> d) data (seq 0 n)
  = replicate n x00 ++ drop n data.
Proof.
  induction n as [|n IH]; intros Hn.
  - reflexivity.
  - rewrite seq_S, foldl_app, IH by lia. simpl.
    destruct (lookup_lt_is_Some_2 data n) as [x Hx]; [lia|].
    rewrite (drop_S data x n Hx).
    rewrite insert_app_r_alt by (rewrite length_replicate; lia).
    rewrite length_replicate, Nat.sub_diag. simpl.
    rewrite app_comm_cons.
    change (x00 :: replicate n x00) with (replicate (S n) x00).
    rewrite replicate_S_end, <- app_assoc. reflexivity.
Qed.

Lemma zero_loop_spec (data : list byte) :
  zero_loop data = replicate (length data) x00.
Proof.
  unfold zero_loop. rewrite zero_loop_prefix by lia.
  rewrite drop_all. apply app_nil_r.
Qed.

Lemma all_zero_replicate (n : nat) : all_zero (replicate n x00).
Proof. unfold all_zero. apply Forall_replicate. reflexivity. Qed.

Lemma zero_loop_all_zero (data : list byte) : all_zero (zero_loop data).
Proof. rewrite zero_loop_spec. apply all_zero_replicate. Qed.

Lemma zero_loop_length (data : list byte) :
  length (zero_loop data) = length data.
Proof. rewrite zero_loop_spec. apply length_replicate. Qed.

Lemma zero_loop_idemp (data : list byte) :
  zero_loop (zero_loop data) = zero_loop data.
Proof. rewrite !zero_loop_spec, length_replicate. reflexivity. Qed.

(** ** Key derivation *)

Section KeyDerivation.
Context {crypto : Crypto}.

Lemma deriveKey_length (s : State) (id : string) :
  length (deriveKey s id) = 32%nat.
Proof.
  unfold deriveKey. cbn [foldl]. rewrite !copy_at_length. reflexivity.
Qed.

(** The key depends on the identifier through the two blocks only. *)
Lemma deriveKey_blocks (s : State) (a b : string) :
  deriveKey_block a 0 = deriveKey_block b 0 ->
  deriveKey_block a 16 = deriveKey_block b 16 ->
  deriveKey s a = deriveKey s b.
Proof.
  intros H0 H16. unfold deriveKey. cbn [foldl]. rewrite H0, H16. reflexivity.
Qed.

(** With blocks of 16 bytes out of the cipher, the key is the two
    encrypted blocks one after the other. *)
Lemma deriveKey_two_blocks (s : State) (id : string) :
  length (aes_Encrypt (masterKey s) (deriveKey_block id 0)) = 16%nat ->
  length (aes_Encrypt (masterKey s) (deriveKey_block id 16)) = 16%nat ->
  deriveKey s id
  = aes_Encrypt (masterKey s) (deriveKey_block id 0)
    ++ aes_Encrypt (masterKey s) (deriveKey_block id 16).
Proof.
  intros L0 L16. unfold deriveKey. cbn [foldl].
  rewrite !(copy_exact (make aes_BlockSize))
    by (unfold make, aes_BlockSize; rewrite length_replicate; congruence).
  set (e0 := aes_Encrypt (masterKey s) (deriveKey_block id 0)) in *.
  set (e16 := aes_Encrypt (masterKey s) (deriveKey_block id 16)) in *.
  assert (E0 : copy_at 0 (make 32) e0 = e0 ++ make 16).
  { unfold copy_at, copy, make.
    rewrite drop_0, length_replicate, L0, (take_ge e0) by lia. reflexivity. }
  rewrite E0. unfold copy_at.
  rewrite (take_app_length' e0 _ 16), (drop_app_length' e0 _ 16)
    by (symmetry; exact L0).
  rewrite copy_exact; [reflexivity|].
  unfold make. rewrite length_replicate. congruence.
Qed.

Lemma deriveKey_block_length (id : string) (i : nat) :
  length (deriveKey_block id i) = 16%nat.
Proof.
  unfold deriveKey_block, PutUint64.
  rewrite length_app, copy_length, length_take, length_drop, copy_length.
  unfold make, aes_BlockSize. rewrite length_replicate. reflexivity.
Qed.

(** X7: what [deriveKey] does separate: two identifiers whose first eight
    bytes, after padding with zeros, differ get different keys from a
    cipher that is one-to-one on blocks of 16 bytes. *)
Lemma deriveKey_distinct_prefix (s : State) (a b : string) :
  (forall x : list byte,
      length x = 16%nat -> length (aes_Encrypt (masterKey s) x) = 16%nat) ->
  (forall x y : list byte,
      length x = 16%nat -> length y = 16%nat ->
      aes_Encrypt (masterKey s) x = aes_Encrypt (masterKey s) y -> x = y) ->
  take 8 (copy (make 16) (stringToBytes a))
  <> take 8 (copy (make 16) (stringToBytes b)) ->
  deriveKey s a <> deriveKey s b.
Proof.
  intros Hlen Hinj Hne E. apply Hne.
  rewrite !deriveKey_two_blocks in E
    by (apply Hlen, deriveKey_block_length).
  apply app_inj_1 in E;
    [|rewrite !Hlen by apply deriveKey_block_length; reflexivity].
  destruct E as [E _].
  apply Hinj in E; try apply deriveKey_block_length.
  unfold deriveKey_block in E.
  apply app_inj_1 in E; [apply E|].
  rewrite !length_take, !copy_length. reflexivity.
Qed.

Lemma deriveKey_masterKey (s s' : State) (id : string) :
  masterKey s = masterKey s' -> deriveKey s id = deriveKey s' id.
Proof. intros E. unfold deriveKey. rewrite E. reflexivity. Qed.

End KeyDerivation.

(** The block cipher of the small instance is one-to-one, and there
    "password" and "passport" get different keys. *)
Example deriveKey_distinct_toy :
  deriveKey (crypto := toy_crypto) main_new "password"
  <> deriveKey (crypto := toy_crypto) main_new "passport".
Proof.
  apply (deriveKey_distinct_prefix (crypto := toy_crypto)).
  - intros x Hx. cbn. rewrite length_reverse. exact Hx.
  - intros x y _ _ E. cbn in E.
    rewrite <- (reverse_involutive x), E. apply reverse_involutive.
  - vm_compute. discriminate.
Defined.

Example deriveKey_block_password1 :
  deriveKey_block "password1" 16
  = map byte_of_Z [112; 97; 115; 115; 119; 111; 114; 100; 16; 0; 0; 0; 0; 0; 0; 0].
Proof. vm_compute. reflexivity. Qed.

(** C3, at the identifiers "password1" and "password2": they differ in
    their ninth byte only, the counter is written over bytes 8 to 15 of the
    block, and the two derived keys are equal, for every master key and
    every block cipher. *)
Theorem deriveKey_collision :
  forall (crypto : Crypto) (s : State),
    "password1" <> "password2" /\
    deriveKey s "password1" = deriveKey s "password2".
Proof.
  intros crypto s. split; [discriminate|].
  apply deriveKey_blocks; vm_compute; reflexivity.
Qed.

(** ** Sealing and opening *)

Section Aead.
Context {crypto : Crypto}.

Lemma aes_NewCipher_32 (key : list byte) :
  length key = 32%nat -> aes_NewCipher key = Ok key.
Proof.
  intros E. unfold aes_NewCipher. rewrite E.
  destruct (decide _) as [_|N]; [reflexivity|]. exfalso. apply N. auto.
Qed.

Lemma ReadFull_ok (bs buf : list byte) :
  (length buf <= length bs)%nat ->
  ReadFull (EntropyBytes bs) buf = Ok (copy buf bs).
Proof.
  intros L. unfold ReadFull. destruct (decide _); [reflexivity|lia].
Qed.

Lemma encryptData_ok (bs data key : list byte) :
  length key = 32%nat -> (12 <= length bs)%nat ->
  encryptData (EntropyBytes bs) data key
  = Ok (copy (make 12) bs ++ gcm_Seal key (copy (make 12) bs) data).
Proof.
  intros Hk Hb. unfold encryptData.
  rewrite aes_NewCipher_32 by exact Hk. cbn [mbind result_bind cipher_NewGCM].
  unfold gcm_NonceSize. rewrite ReadFull_ok; [reflexivity|].
  unfold make. rewrite length_replicate. exact Hb.
Qed.

(** The only ways [encryptData] fails: the key has a wrong size, or the
    random source fails or ends early. *)
Lemma encryptData_err (r : Entropy) (data key : list byte) (e : error) :
  encryptData r data key = Err e ->
  e = KeySizeError (length key) \/
  (exists c, r = EntropyFail c /\ e = ErrEntropy c) \/
  (exists bs, r = EntropyBytes bs /\ (length bs < 12)%nat /\ e = ErrUnexpectedEOF).
Proof.
  unfold encryptData, aes_NewCipher.
  destruct (decide _) as [_|_]; cbn [mbind result_bind cipher_NewGCM].
  - destruct r as [c|bs]; cbn [ReadFull].
    + intros [= <-]. right. left. eauto.
    + unfold gcm_NonceSize, make. rewrite length_replicate.
      destruct (decide _) as [|N]; [discriminate|].
      intros [= <-]. right. right. exists bs.
      split; [reflexivity|]. split; [lia|reflexivity].
  - intros [= <-]. left. reflexivity.
Qed.

Lemma decryptData_sealed (nonce data key : list byte) :
  length key = 32%nat -> length nonce = 12%nat ->
  decryptData (nonce ++ gcm_Seal key nonce data) key = Ok data.
Proof.
  intros Hk Hn. unfold decryptData.
  rewrite aes_NewCipher_32 by exact Hk. cbn [mbind result_bind cipher_NewGCM].
  unfold gcm_NonceSize.
  destruct (decide _) as [L|_].
  - rewrite length_app in L. lia.
  - rewrite (take_app_length' nonce _ 12), (drop_app_length' nonce _ 12)
      by (symmetry; exact Hn).
    rewrite gcm_Open_Seal by assumption. reflexivity.
Qed.

(** A blob shorter than a nonce is refused before anything is opened. *)
Lemma decryptData_short (encrypted key : list byte) :
  (length encrypted < 12)%nat ->
  exists e, decryptData encrypted key = Err e.
Proof.
  intros L. unfold decryptData.
  destruct (aes_NewCipher key) as [block|e];
    cbn [mbind result_bind cipher_NewGCM]; [|eauto].
  unfold gcm_NonceSize. destruct (decide _); [eauto|lia].
Qed.

End Aead.

(** ** The operations of the store *)

Section Operations.
Context {crypto : Crypto}.

Lemma dataStore_wipeBytes (data : slice) (s : State) :
  dataStore (wipeBytes data s) = dataStore s.
Proof. destruct data; reflexivity. Qed.

Lemma keyCache_wipeBytes (data : slice) (s : State) :
  keyCache (wipeBytes data s) = keyCache s.
Proof. destruct data; reflexivity. Qed.

Lemma masterKey_wipeBytes (data : slice) (s : State) :
  masterKey (wipeBytes data s) = masterKey s.
Proof. destruct data; reflexivity. Qed.

Lemma gcPercent_wipeBytes (data : slice) (s : State) :
  gcPercent (wipeBytes data s) = gcPercent s.
Proof. destruct data; reflexivity. Qed.

Lemma length_heap_wipeBytes (data : slice) (s : State) :
  length (heap (wipeBytes data s)) = length (heap s).
Proof. destruct data; [apply length_alter|reflexivity]. Qed.

(** Wiping through a slice leaves every other buffer as it was. *)
Lemma heap_wipeBytes_other (data : slice) (s : State) (l : loc) :
  data <> Some l -> heap (wipeBytes data s) !! l = heap s !! l.
Proof.
  destruct data as [a|]; [|reflexivity]. intros N. cbn.
  apply list_lookup_alter_ne. congruence.
Qed.

(** Wiping through a slice zeroes the buffer it refers to. *)
Lemma bytes_at_wipeBytes (data : slice) (s : State) :
  bytes_at (heap (wipeBytes data s)) data
  = replicate (length (bytes_at (heap s) data)) x00.
Proof.
  destruct data as [a|]; [|reflexivity].
  unfold wipeBytes, bytes_at, set_heap. cbn [heap].
  rewrite list_lookup_alter_eq.
  destruct (heap s !! a) as [b|]; cbn [fmap option_fmap option_map default];
    [apply zero_loop_spec|reflexivity].
Qed.

(** What a successful [Set] leaves behind. *)
Definition Set_result (s : State) (key : string) (data : slice)
    (enc : list byte) : State :=
  wipeBytes data
    (mkState (heap s ++ [enc]) (gcPercent s) (masterKey s)
       (<[key := length (heap s)]> (dataStore s))
       (<[key := deriveKey s key]> (keyCache s))).

Lemma Set_unfold (s : State) (key : string) (data : slice) (r : Entropy) :
  Set_ s key data r =
  match encryptData r (bytes_at (heap s) data) (deriveKey s key) with
  | Err e => (s, Some e)
  | Ok enc => (Set_result s key data enc, None)
  end.
Proof. unfold Set_. destruct (encryptData _ _ _); reflexivity. Qed.

Lemma Get_sealed (s : State) (key : string) (l : loc)
    (itemKey nonce data : list byte) :
  dataStore s !! key = Some l ->
  keyCache s !! key = Some itemKey ->
  heap s !! l = Some (nonce ++ gcm_Seal itemKey nonce data) ->
  length itemKey = 32%nat -> length nonce = 12%nat ->
  Get s key = (set_heap (heap s ++ [data]) s, (Some (length (heap s)), true)).
Proof.
  intros Hd Hk Hh Lk Ln. unfold Get. rewrite Hd, Hk.
  unfold bytes_at. rewrite Hh. cbn [default from_option id].
  rewrite decryptData_sealed by assumption. reflexivity.
Qed.

(** C1: [Set(k, v)] succeeds whenever the random source delivers a nonce,
    it zeroes the caller's buffer, and the [Get(k)] that follows returns
    [true] with a buffer that holds the bytes [v] had when [Set] was
    called. *)
Theorem Set_Get_roundtrip (s : State) (k : string) (data : slice)
    (bs : list byte) :
  live s data -> (12 <= length bs)%nat ->
  exists (s1 s2 : State) (l : loc),
    Set_ s k data (EntropyBytes bs) = (s1, None) /\
    bytes_at (heap s1) data = replicate (length (bytes_at (heap s) data)) x00 /\
    Get s1 k = (s2, (Some l, true)) /\
    heap s2 !! l = Some (bytes_at (heap s) data).
Proof.
  intros Hlive Hbs.
  set (v := bytes_at (heap s) data).
  set (nonce := copy (make 12) bs).
  set (enc := nonce ++ gcm_Seal (deriveKey s k) nonce v).
  assert (Ln : length nonce = 12%nat).
  { unfold nonce. rewrite copy_length. apply length_replicate. }
  exists (Set_result s k data enc).
  eexists. eexists.
  split.
  { rewrite Set_unfold. fold v.
    rewrite encryptData_ok by (auto using deriveKey_length). reflexivity. }
  split.
  { unfold Set_result. rewrite bytes_at_wipeBytes. f_equal. f_equal.
    destruct data as [a|]; [|reflexivity]. cbn in Hlive |- *.
    rewrite lookup_app_l by exact Hlive. reflexivity. }
  assert (Henc : heap (Set_result s k data enc) !! length (heap s) = Some enc).
  { unfold Set_result. rewrite heap_wipeBytes_other.
    - cbn. apply list_lookup_middle. reflexivity.
    - destruct data as [a|]; [|discriminate]. cbn in Hlive.
      intros [= ->]. lia. }
  split.
  { eapply Get_sealed.
    - unfold Set_result. rewrite dataStore_wipeBytes. cbn.
      apply lookup_insert_eq.
    - unfold Set_result. rewrite keyCache_wipeBytes. cbn.
      apply lookup_insert_eq.
    - exact Henc.
    - apply deriveKey_length.
    - exact Ln. }
  cbn. apply list_lookup_middle. reflexivity.
Qed.

(** [Get] says [true] only after both lookups and the opening succeeded,
    and then the new buffer holds the opened bytes. *)
Lemma Get_true_inv (s s1 : State) (k : string) (data : slice) :
  Get s k = (s1, (data, true)) ->
  exists (l : loc) (itemKey plain : list byte),
    dataStore s !! k = Some l /\ keyCache s !! k = Some itemKey /\
    decryptData (bytes_at (heap s) (Some l)) itemKey = Ok plain /\
    s1 = set_heap (heap s ++ [plain]) s /\ data = Some (length (heap s)).
Proof.
  unfold Get.
  destruct (dataStore s !! k) as [l|]; [|discriminate].
  destruct (keyCache s !! k) as [itemKey|]; [|discriminate].
  destruct (decryptData _ itemKey) as [plain|e] eqn:D; [|discriminate].
  cbn. intros [= <- <-]. exists l, itemKey, plain. auto.
Qed.

Lemma Get_false_inv (s s1 : State) (k : string) (data : slice) :
  Get s k = (s1, (data, false)) -> s1 = s /\ data = None.
Proof.
  unfold Get.
  destruct (dataStore s !! k) as [l|]; [|intros [= <- <-]; auto].
  destruct (keyCache s !! k) as [itemKey|]; [|intros [= <- <-]; auto].
  destruct (decryptData _ itemKey) as [plain|e]; [discriminate|].
  intros [= <- <-]; auto.
Qed.

(** C5: [Get] has no error result.  It answers [(nil, false)], with the
    store as it was, when the identifier is missing from [dataStore], when
    it is missing from [keyCache], and when [decryptData] fails on the
    stored blob, whatever the failure (a blob shorter than a nonce, a blob
    the AEAD refuses to open); it answers [true] only when both lookups and
    the opening succeeded, with the opened bytes in a new buffer. *)
Theorem Get_reports_absence (s : State) (k : string) :
  (dataStore s !! k = None -> Get s k = (s, (None, false))) /\
  (keyCache s !! k = None -> Get s k = (s, (None, false))) /\
  (forall (l : loc) (itemKey : list byte) (e : error),
      dataStore s !! k = Some l -> keyCache s !! k = Some itemKey ->
      decryptData (bytes_at (heap s) (Some l)) itemKey = Err e ->
      Get s k = (s, (None, false))) /\
  (forall (l : loc) (itemKey blob : list byte),
      dataStore s !! k = Some l -> keyCache s !! k = Some itemKey ->
      heap s !! l = Some blob ->
      (length blob < 12)%nat \/
      gcm_Open itemKey (take 12 blob) (drop 12 blob) = None ->
      Get s k = (s, (None, false))) /\
  (forall (s1 : State) (data : slice),
      Get s k = (s1, (data, true)) ->
      exists (l : loc) (itemKey plain : list byte),
        dataStore s !! k = Some l /\ keyCache s !! k = Some itemKey /\
        decryptData (bytes_at (heap s) (Some l)) itemKey = Ok plain /\
        data = Some (length (heap s)) /\
        heap s1 !! length (heap s) = Some plain) /\
  (forall (s1 : State) (data : slice),
      Get s k = (s1, (data, false)) -> s1 = s /\ data = None).
Proof.
  assert (Hfail : forall l itemKey e,
      dataStore s !! k = Some l -> keyCache s !! k = Some itemKey ->
      decryptData (bytes_at (heap s) (Some l)) itemKey = Err e ->
      Get s k = (s, (None, false))).
  { intros l itemKey e Hd Hk D. unfold Get. rewrite Hd, Hk, D. reflexivity. }
  split; [|split; [|split; [|split; [|split]]]].
  - intros Hd. unfold Get. rewrite Hd. reflexivity.
  - intros Hk. unfold Get. rewrite Hk.
    destruct (dataStore s !! k); reflexivity.
  - exact Hfail.
  - intros l itemKey blob Hd Hk Hh Hbad.
    destruct (decryptData (bytes_at (heap s) (Some l)) itemKey) as [p|e] eqn:D;
      [|eapply Hfail; eassumption].
    exfalso. revert D. unfold bytes_at. rewrite Hh. cbn [default from_option id].
    unfold decryptData.
    destruct (aes_NewCipher itemKey) as [block|e] eqn:N;
      cbn [mbind result_bind cipher_NewGCM]; [|discriminate].
    assert (block = itemKey) as ->.
    { unfold aes_NewCipher in N. destruct (decide _); congruence. }
    unfold gcm_NonceSize.
    destruct (decide (length blob < 12)%nat) as [L|L]; [discriminate|].
    destruct Hbad as [L'|Hopen]; [lia|]. rewrite Hopen. discriminate.
  - intros s1 data G. apply Get_true_inv in G.
    destruct G as (l & itemKey & plain & Hd & Hk & D & -> & ->).
    exists l, itemKey, plain. repeat (split; [assumption || reflexivity|]).
    cbn. apply list_lookup_middle. reflexivity.
  - intros s1 data G. eapply Get_false_inv. exact G.
Qed.

(** C10: when the encryption step of [Set] fails, [Set] returns that error
    and the whole store, both mappings included, is as it was; [Set]
    returns no other error; and when [Set] succeeds both mappings have an
    entry for the identifier and agree with the old ones elsewhere. *)
Theorem Set_both_or_neither (s : State) (k : string) (data : slice)
    (r : Entropy) :
  (forall e : error,
      encryptData r (bytes_at (heap s) data) (deriveKey s k) = Err e ->
      Set_ s k data r = (s, Some e)) /\
  match Set_ s k data r with
  | (s', Some e) =>
      s' = s /\ encryptData r (bytes_at (heap s) data) (deriveKey s k) = Err e
  | (s', None) =>
      dataStore s' !! k = Some (length (heap s)) /\
      keyCache s' !! k = Some (deriveKey s k) /\
      forall k' : string, k' <> k ->
        dataStore s' !! k' = dataStore s !! k' /\
        keyCache s' !! k' = keyCache s !! k'
  end.
Proof.
  rewrite Set_unfold.
  destruct (encryptData r _ _) as [enc|e0]; split.
  - discriminate.
  - unfold Set_result. rewrite dataStore_wipeBytes, keyCache_wipeBytes. cbn.
    rewrite !lookup_insert_eq. repeat split.
    + apply lookup_insert_ne. congruence.
    + apply lookup_insert_ne. congruence.
  - intros e [= ->]. reflexivity.
  - auto.
Qed.

(** C4: when the identifier is present and its blob opens, [GetAndUse]
    calls the function on the opened bytes, hands back what the function
    gave (its error or [nil], or its panic) with the caller's state as the
    function left it, and in every one of these cases the buffer the
    function worked on is all zero afterwards; when [Get] finds nothing,
    and so for every identifier missing from a mapping, the result is the
    error "key not found" and the function is not called: the caller's
    state and the store are unchanged. *)
Theorem GetAndUse_scoped {U : Type} (s : State) (k : string)
    (fn : callback U) (u : U) :
  (forall (l : loc) (itemKey plain : list byte),
      dataStore s !! k = Some l -> keyCache s !! k = Some itemKey ->
      decryptData (bytes_at (heap s) (Some l)) itemKey = Ok plain ->
      exists s2 : State,
        GetAndUse s k fn u = (s2, snd (fst (fn plain u)), snd (fn plain u)) /\
        heap s2 !! length (heap s) = Some (replicate (length plain) x00) /\
        (forall l' : loc, (l' < length (heap s))%nat ->
                          heap s2 !! l' = heap s !! l') /\
        dataStore s2 = dataStore s /\ keyCache s2 = keyCache s) /\
  (forall (s1 : State) (data : slice),
      Get s k = (s1, (data, false)) ->
      GetAndUse s k fn u = (s, u, Returned (Some ErrKeyNotFound))) /\
  (dataStore s !! k = None \/ keyCache s !! k = None ->
   GetAndUse s k fn u = (s, u, Returned (Some ErrKeyNotFound))).
Proof.
  split; [|split].
  - intros l itemKey plain Hd Hk D.
    unfold GetAndUse, Get. rewrite Hd, Hk, D. cbn [alloc].
    cbn [bytes_at heap set_heap]. rewrite list_lookup_middle by reflexivity.
    cbn [default from_option id].
    destruct (fn plain u) as [[after u'] out]. cbn [fst snd].
    eexists. split; [reflexivity|].
    cbn [wipeBytes heap set_heap dataStore keyCache].
    split; [|split; [|split; reflexivity]].
    + rewrite list_lookup_alter_eq, list_lookup_insert_eq
        by (rewrite length_app; cbn; lia).
      cbn. rewrite zero_loop_spec, copy_length. reflexivity.
    + intros l' Hl'.
      rewrite list_lookup_alter_ne, list_lookup_insert_ne by lia.
      apply lookup_app_l. exact Hl'.
  - intros s1 data G. unfold GetAndUse. rewrite G.
    apply Get_false_inv in G. destruct G as [-> _]. reflexivity.
  - intros Habs. unfold GetAndUse, Get.
    destruct Habs as [Hd|Hk].
    + rewrite Hd. reflexivity.
    + rewrite Hk. destruct (dataStore s !! k); reflexivity.
Qed.

(** ** Delete *)

(** X11: [Delete] of an identifier that is in neither mapping changes
    nothing: not the mappings, not a buffer, not the master key. *)
Lemma Delete_absent (s : State) (k : string) :
  dataStore s !! k = None -> keyCache s !! k = None -> Delete s k = s.
Proof.
  intros Hd Hk. unfold Delete, Delete_ciphertext. rewrite Hd.
  unfold Delete_wipeKey. rewrite Hk. reflexivity.
Qed.

Lemma dataStore_Delete (s : State) (k : string) :
  dataStore (Delete s k) = delete k (dataStore s).
Proof.
  unfold Delete, Delete_ciphertext, Delete_wipeKey.
  destruct (dataStore s !! k) as [l|] eqn:Hd.
  - cbn [keyCache set_dataStore wipeBytes set_heap].
    destruct (keyCache s !! k); reflexivity.
  - rewrite delete_id by exact Hd. destruct (keyCache s !! k); reflexivity.
Qed.

Lemma keyCache_Delete (s : State) (k : string) :
  keyCache (Delete s k) = delete k (keyCache s).
Proof.
  unfold Delete, Delete_ciphertext, Delete_wipeKey.
  assert (E : forall s1 : State, keyCache s1 = keyCache s ->
    keyCache (let '(s2, itemKey) :=
                match keyCache s1 !! k with
                | Some itemKey => (s1, Some (wipeKey itemKey))
                | None => (s1, None)
                end in
              match itemKey with
              | Some _ => set_keyCache (delete k (keyCache s2)) s2
              | None => s2
              end) = delete k (keyCache s)).
  { intros s1 E1. rewrite E1. destruct (keyCache s !! k) eqn:Hk; cbn.
    - rewrite E1. reflexivity.
    - rewrite delete_id by exact Hk. exact E1. }
  destruct (dataStore s !! k); apply E; reflexivity.
Qed.

(** X10: after [Delete(k)] of an identifier that has a ciphertext, the
    buffer that held the ciphertext keeps its length and is all zero, both
    entries are gone and [Get(k)] finds nothing. *)
Lemma Delete_present (s : State) (k : string) (l : loc) (blob : list byte) :
  dataStore s !! k = Some l -> heap s !! l = Some blob ->
  heap (Delete s k) !! l = Some (replicate (length blob) x00) /\
  dataStore (Delete s k) !! k = None /\
  keyCache (Delete s k) !! k = None /\
  Get (Delete s k) k = (Delete s k, (None, false)).
Proof.
  intros Hd Hh.
  assert (Hds : dataStore (Delete s k) !! k = None).
  { rewrite dataStore_Delete. apply lookup_delete_eq. }
  split; [|split; [exact Hds|split]].
  - unfold Delete, Delete_ciphertext, Delete_wipeKey. rewrite Hd.
    cbn [keyCache set_dataStore wipeBytes set_heap].
    assert (E : alter zero_loop l (heap s) !! l
                = Some (replicate (length blob) x00)).
    { rewrite list_lookup_alter_eq, Hh. cbn. rewrite zero_loop_spec.
      reflexivity. }
    destruct (keyCache s !! k); exact E.
  - rewrite keyCache_Delete. apply lookup_delete_eq.
  - unfold Get. rewrite Hds. reflexivity.
Qed.

(** The per-item key in [Delete]: at line 185, after [wipeKey(&itemKey)]
    has run, the local array [itemKey] is all zero and the element of
    [keyCache] holds the bytes it held before; [delete] then drops the
    element as it is.  The stored key is never written. *)
Lemma Delete_wipes_a_copy (s : State) (k : string) (itemKey : list byte) :
  keyCache s !! k = Some itemKey ->
  let '(s2, local) := Delete_wipeKey (Delete_ciphertext s k) k in
  local = Some (replicate (length itemKey) x00) /\
  keyCache s2 !! k = Some itemKey.
Proof.
  intros Hk. unfold Delete_wipeKey.
  assert (E : keyCache (Delete_ciphertext s k) = keyCache s).
  { unfold Delete_ciphertext. destruct (dataStore s !! k); reflexivity. }
  rewrite E, Hk. split; [|rewrite E; exact Hk].
  unfold wipeKey. rewrite zero_loop_spec. reflexivity.
Qed.

(** ** Wipe *)

(** Deleting every key a map lists leaves the empty map. *)
Lemma foldl_delete_None {A : Type} (l : list (string * A))
    (m : gmap string A) (i : string) :
  m !! i = None -> foldl (fun m' p => delete p.1 m') m l !! i = None.
Proof.
  revert m. induction l as [|[k x] l IH]; intros m Hm; [exact Hm|].
  cbn [foldl]. apply IH. apply lookup_delete_None. auto.
Qed.

Lemma foldl_delete_elem {A : Type} (l : list (string * A))
    (m : gmap string A) (i : string) (x : A) :
  (i, x) ∈ l -> foldl (fun m' p => delete p.1 m') m l !! i = None.
Proof.
  revert m. induction l as [|[k y] l IH]; intros m Hin.
  - apply elem_of_nil in Hin. destruct Hin.
  - cbn [foldl]. apply elem_of_cons in Hin. destruct Hin as [[= <- <-]|Hin].
    + apply foldl_delete_None. apply lookup_delete_eq.
    + apply IH. exact Hin.
Qed.

Lemma foldl_delete_all {A : Type} (m : gmap string A) :
  foldl (fun m' p => delete p.1 m') m (map_to_list m) = ∅.
Proof.
  apply map_empty. intros i. destruct (m !! i) as [x|] eqn:Hi.
  - apply (foldl_delete_elem _ _ _ x). apply elem_of_map_to_list. exact Hi.
  - apply foldl_delete_None. exact Hi.
Qed.

Lemma Wipe_data_fold (l : list (string * loc)) (s : State) :
  let s' := foldl (fun st '(key, encrypted) =>
                     let st1 := wipeBytes (Some encrypted) st in
                     set_dataStore (delete key (dataStore st1)) st1) s l in
  gcPercent s' = gcPercent s /\ masterKey s' = masterKey s /\
  keyCache s' = keyCache s /\ length (heap s') = length (heap s) /\
  dataStore s' = foldl (fun m' p => delete p.1 m') (dataStore s) l.
Proof.
  revert s. induction l as [|[k e] l IH]; intros s; [cbn; auto|].
  cbn [foldl]. cbn zeta in IH |- *.
  destruct (IH (set_dataStore (delete k (dataStore (wipeBytes (Some e) s)))
                  (wipeBytes (Some e) s))) as (H1 & H2 & H3 & H4 & H5).
  rewrite H1, H2, H3, H4, H5. cbn. rewrite length_alter. auto.
Qed.

Lemma Wipe_keys_fold (l : list (string * list byte)) (s : State) :
  let s' := foldl (fun st '(key, itemKey) =>
                     let itemKey' := wipeKey itemKey in
                     set_keyCache (delete key (keyCache st)) st) s l in
  gcPercent s' = gcPercent s /\ masterKey s' = masterKey s /\
  dataStore s' = dataStore s /\ heap s' = heap s /\
  keyCache s' = foldl (fun m' p => delete p.1 m') (keyCache s) l.
Proof.
  revert s. induction l as [|[k e] l IH]; intros s; [cbn; auto|].
  cbn [foldl]. cbn zeta in IH |- *.
  destruct (IH (set_keyCache (delete k (keyCache s)) s))
    as (H1 & H2 & H3 & H4 & H5).
  rewrite H1, H2, H3, H4, H5. cbn. auto.
Qed.

(** The first loop zeroes every buffer it passes and no other. *)
Lemma Wipe_data_heap (l : list (string * loc)) (s : State) (a : loc) :
  heap (foldl (fun st '(key, encrypted) =>
                 let st1 := wipeBytes (Some encrypted) st in
                 set_dataStore (delete key (dataStore st1)) st1) s l) !! a
  = (if decide (a ∈ l.*2) then zero_loop else id) <$> heap s !! a.
Proof.
  revert s. induction l as [|[k e] l IH]; intros s.
  - cbn. destruct (heap s !! a); reflexivity.
  - cbn [foldl]. cbn zeta. rewrite IH. cbn [fmap list_fmap snd].
    cbn [wipeBytes set_dataStore set_heap heap].
    rewrite list_lookup_alter.
    destruct (decide (e = a)) as [->|Hne].
    + destruct (heap s !! a) as [blob|]; [|reflexivity]. cbn.
      destruct (decide (a ∈ l.*2)), (decide (a ∈ a :: l.*2)) as [|N];
        cbn; rewrite ?zero_loop_idemp; try reflexivity.
      all: exfalso; apply N; left.
    + destruct (decide (a ∈ l.*2)) as [Hin|Hin],
               (decide (a ∈ e :: l.*2)) as [Hin'|Hin']; try reflexivity.
      * exfalso. apply Hin'. right. exact Hin.
      * exfalso. apply elem_of_cons in Hin'. destruct Hin'; congruence.
Qed.

Lemma Wipe_data_spec (s : State) :
  gcPercent (Wipe_data s) = gcPercent s /\
  masterKey (Wipe_data s) = masterKey s /\
  keyCache (Wipe_data s) = keyCache s /\
  length (heap (Wipe_data s)) = length (heap s) /\
  dataStore (Wipe_data s) = ∅.
Proof.
  destruct (Wipe_data_fold (map_to_list (dataStore s)) s)
    as (H1 & H2 & H3 & H4 & H5).
  rewrite foldl_delete_all in H5. unfold Wipe_data. auto.
Qed.

Lemma Wipe_keys_spec (s : State) :
  gcPercent (Wipe_keys s) = gcPercent s /\
  masterKey (Wipe_keys s) = masterKey s /\
  dataStore (Wipe_keys s) = dataStore s /\
  heap (Wipe_keys s) = heap s /\
  keyCache (Wipe_keys s) = ∅.
Proof.
  destruct (Wipe_keys_fold (map_to_list (keyCache s)) s)
    as (H1 & H2 & H3 & H4 & H5).
  rewrite foldl_delete_all in H5. unfold Wipe_keys. auto.
Qed.

Lemma Wipe_unfold (s : State) :
  Wipe s = set_masterKey (wipeKey (masterKey (Wipe_keys (Wipe_data s))))
             (Wipe_keys (Wipe_data s)).
Proof. reflexivity. Qed.

Lemma dataStore_Wipe (s : State) : dataStore (Wipe s) = ∅.
Proof.
  rewrite Wipe_unfold. cbn [dataStore set_masterKey].
  destruct (Wipe_keys_spec (Wipe_data s)) as (_ & _ & -> & _ & _).
  apply Wipe_data_spec.
Qed.

Lemma keyCache_Wipe (s : State) : keyCache (Wipe s) = ∅.
Proof.
  rewrite Wipe_unfold. cbn [keyCache set_masterKey]. apply Wipe_keys_spec.
Qed.

Lemma masterKey_Wipe (s : State) :
  masterKey (Wipe s) = replicate (length (masterKey s)) x00.
Proof.
  rewrite Wipe_unfold. cbn [masterKey set_masterKey].
  destruct (Wipe_keys_spec (Wipe_data s)) as (_ & -> & _ & _ & _).
  destruct (Wipe_data_spec s) as (_ & -> & _ & _ & _).
  apply zero_loop_spec.
Qed.

Lemma gcPercent_Wipe (s : State) : gcPercent (Wipe s) = gcPercent s.
Proof.
  rewrite Wipe_unfold. cbn [gcPercent set_masterKey].
  destruct (Wipe_keys_spec (Wipe_data s)) as (-> & _ & _ & _ & _).
  apply Wipe_data_spec.
Qed.

(** X16: [Wipe()] zeroes every buffer that [dataStore] refers to, keeping
    its length. *)
Lemma Wipe_zeroes_ciphertexts (s : State) (k : string) (l : loc)
    (blob : list byte) :
  dataStore s !! k = Some l -> heap s !! l = Some blob ->
  heap (Wipe s) !! l = Some (replicate (length blob) x00).
Proof.
  intros Hd Hh. rewrite Wipe_unfold. cbn [heap set_masterKey].
  destruct (Wipe_keys_spec (Wipe_data s)) as (_ & _ & _ & -> & _).
  unfold Wipe_data. rewrite Wipe_data_heap, Hh.
  destruct (decide _) as [_|N].
  - cbn. rewrite zero_loop_spec. reflexivity.
  - exfalso. apply N. apply list_elem_of_fmap. exists (k, l).
    split; [reflexivity|]. apply elem_of_map_to_list. exact Hd.
Qed.

Lemma Wipe_emptied (s : State) :
  dataStore s = ∅ -> keyCache s = ∅ ->
  Wipe s = set_masterKey (wipeKey (masterKey s)) s.
Proof.
  intros Hd Hk. unfold Wipe, Wipe_data. rewrite Hd, map_to_list_empty.
  cbn [foldl]. unfold Wipe_keys. rewrite Hk, map_to_list_empty. reflexivity.
Qed.

(** C7: after [Wipe()] both mappings are empty and every byte of the
    master key is zero, and a second [Wipe()] leaves the store, the heap
    and the collector's setting exactly as the first one left them. *)
Theorem Wipe_empties_and_is_idempotent (s : State) :
  dataStore (Wipe s) = ∅ /\
  keyCache (Wipe s) = ∅ /\
  all_zero (masterKey (Wipe s)) /\
  length (masterKey (Wipe s)) = length (masterKey s) /\
  Wipe (Wipe s) = Wipe s.
Proof.
  split; [apply dataStore_Wipe|]. split; [apply keyCache_Wipe|].
  split; [rewrite masterKey_Wipe; apply all_zero_replicate|].
  split; [rewrite masterKey_Wipe; apply length_replicate|].
  rewrite (Wipe_emptied (Wipe s)) by (apply dataStore_Wipe || apply keyCache_Wipe).
  unfold wipeKey. rewrite masterKey_Wipe, zero_loop_spec, length_replicate.
  rewrite <- masterKey_Wipe. destruct (Wipe s). reflexivity.
Qed.

(** C6, as the code has it: [Wipe()] leaves the collector's setting as it
    finds it, which after [NewSecureStore] is -1 (collection suspended);
    the closure that [registerCleanup] stores in [cleanupFunc] is what sets
    it to 100, after calling [Wipe()]. *)
Theorem cleanupFunc_restores_gc (h : list (list byte)) (gc : Z) (r : Entropy)
    (s : State) :
  gcPercent (Wipe s) = gcPercent s /\
  gcPercent (cleanupFunc s) = 100 /\
  cleanupFunc s = set_gcPercent 100 (Wipe s) /\
  match NewSecureStore h gc r with
  | Ok s0 => gcPercent s0 = -1 /\ gcPercent (Wipe s0) = -1
  | Err _ => True
  end.
Proof.
  split; [apply gcPercent_Wipe|]. split; [reflexivity|].
  split; [reflexivity|].
  unfold NewSecureStore. destruct (ReadFull r (make 32)) as [mk|e]; [|exact I].
  cbn [mbind result_bind]. rewrite gcPercent_Wipe. split; reflexivity.
Qed.

End Operations.

(** C6 as stated fails: in a fresh process, where the setting is 100,
    [NewSecureStore] sets it to -1 and it is still -1 after [Wipe()]. *)
Lemma Wipe_leaves_gc_suspended :
  NewSecureStore [] 100 (x01s 32) = Ok main_new /\
  gcPercent main_new = -1 /\
  gcPercent (Wipe main_new) = -1 /\
  gcPercent (Wipe main_new) <> 100.
Proof.
  split; [reflexivity|]. split; [reflexivity|].
  rewrite gcPercent_Wipe. split; [reflexivity|]. discriminate.
Qed.

(** ** The two mappings go together *)

Section Paired.
Context {crypto : Crypto}.

Lemma paired_iff (s : State) :
  paired s <->
  forall k : string, is_Some (dataStore s !! k) <-> is_Some (keyCache s !! k).
Proof.
  unfold paired. split.
  - intros E k. rewrite <- !elem_of_dom, E. reflexivity.
  - intros H. apply set_eq. intros k. rewrite !elem_of_dom. apply H.
Qed.

Lemma Get_maps (s : State) (k : string) :
  dataStore (Get s k).1 = dataStore s /\ keyCache (Get s k).1 = keyCache s.
Proof.
  unfold Get. destruct (dataStore s !! k); [|auto].
  destruct (keyCache s !! k); [|auto].
  destruct (decryptData _ _); auto.
Qed.

Lemma GetAndUse_maps {U : Type} (s : State) (k : string) (fn : callback U)
    (u : U) :
  dataStore (GetAndUse s k fn u).1.1 = dataStore s /\
  keyCache (GetAndUse s k fn u).1.1 = keyCache s.
Proof.
  unfold GetAndUse. destruct (Get_maps s k) as [Hd Hk].
  destruct (Get s k) as [s1 [data [|]]]; cbn [fst] in Hd, Hk; [|auto].
  destruct (fn _ u) as [[after u'] out]. cbn [fst].
  rewrite dataStore_wipeBytes, keyCache_wipeBytes.
  destruct data; auto.
Qed.

Lemma paired_Set (s : State) (k : string) (data : slice) (r : Entropy) :
  paired s -> paired (Set_ s k data r).1.
Proof.
  unfold paired. intros P. rewrite Set_unfold.
  destruct (encryptData r _ _); [|exact P]. cbn [fst]. unfold Set_result.
  rewrite dataStore_wipeBytes, keyCache_wipeBytes. cbn.
  rewrite !dom_insert_L, P. reflexivity.
Qed.

Lemma paired_Delete (s : State) (k : string) :
  paired s -> paired (Delete s k).
Proof.
  unfold paired. intros P.
  rewrite dataStore_Delete, keyCache_Delete, !dom_delete_L, P. reflexivity.
Qed.

Lemma paired_Wipe (s : State) : paired (Wipe s).
Proof. unfold paired. rewrite dataStore_Wipe, keyCache_Wipe. reflexivity. Qed.

Lemma paired_run_op {U : Type} (s : State) (u : U) (op : Op U) :
  paired s -> paired (run_op (s, u) op).1.
Proof.
  intros P. destruct op as [b|k data r|k|k fn|k|]; cbn [run_op fst].
  - exact P.
  - apply paired_Set, P.
  - unfold paired. destruct (Get_maps s k) as [-> ->]. exact P.
  - destruct (GetAndUse_maps s k fn u) as [Hd Hk].
    destruct (GetAndUse s k fn u) as [[s' u'] out]. unfold paired.
    cbn [fst] in *. rewrite Hd, Hk. exact P.
  - apply paired_Delete, P.
  - apply paired_Wipe.
Qed.

Lemma paired_new (h : list (list byte)) (gc : Z) (r : Entropy) (s : State) :
  NewSecureStore h gc r = Ok s -> paired s.
Proof.
  unfold NewSecureStore. destruct (ReadFull r (make 32)) as [mk|e];
    cbn [mbind result_bind]; [|discriminate].
  intros [= <-]. reflexivity.
Qed.

Lemma reachable_paired {U : Type} (su : State * U) :
  reachable su -> paired su.1.
Proof.
  induction 1 as [h gc r s u Hnew|[s u] op _ IH].
  - eapply paired_new. exact Hnew.
  - apply paired_run_op. exact IH.
Qed.

(** C9: in every state reached from a new store by calls of [Set], [Get],
    [GetAndUse], [Delete] and [Wipe] (and by the caller making buffers of
    its own), an identifier has a ciphertext if and only if it has a
    per-item key. *)
Theorem reachable_same_identifiers {U : Type} (s : State) (u : U) :
  reachable (s, u) ->
  forall k : string, is_Some (dataStore s !! k) <-> is_Some (keyCache s !! k).
Proof.
  intros R. apply paired_iff. exact (reachable_paired (s, u) R).
Qed.

End Paired.

(** ** Setting an identifier twice *)

Section SetAgain.
Context {crypto : Crypto}.

Lemma Set_ok (s : State) (k : string) (data : slice) (bs : list byte) :
  (12 <= length bs)%nat ->
  Set_ s k data (EntropyBytes bs)
  = (Set_result s k data
       (copy (make 12) bs
        ++ gcm_Seal (deriveKey s k) (copy (make 12) bs) (bytes_at (heap s) data)),
     None).
Proof.
  intros Hbs. rewrite Set_unfold.
  rewrite encryptData_ok by (auto using deriveKey_length). reflexivity.
Qed.

(** [Set] writes to the new ciphertext buffer and to the caller's buffer,
    and to no other. *)
Lemma heap_Set_result_other (s : State) (k : string) (data : slice)
    (enc : list byte) (l : loc) :
  (l < length (heap s))%nat -> data <> Some l ->
  heap (Set_result s k data enc) !! l = heap s !! l.
Proof.
  intros Hl Hne. unfold Set_result. rewrite heap_wipeBytes_other by exact Hne.
  cbn. apply lookup_app_l. exact Hl.
Qed.

Lemma length_heap_Set_result (s : State) (k : string) (data : slice)
    (enc : list byte) :
  length (heap (Set_result s k data enc)) = S (length (heap s)).
Proof.
  unfold Set_result. rewrite length_heap_wipeBytes. cbn.
  rewrite length_app. cbn. lia.
Qed.

Lemma dataStore_Set_result (s : State) (k : string) (data : slice)
    (enc : list byte) :
  dataStore (Set_result s k data enc) = <[k := length (heap s)]> (dataStore s).
Proof. unfold Set_result. rewrite dataStore_wipeBytes. reflexivity. Qed.

Lemma keyCache_Set_result (s : State) (k : string) (data : slice)
    (enc : list byte) :
  keyCache (Set_result s k data enc) = <[k := deriveKey s k]> (keyCache s).
Proof. unfold Set_result. rewrite keyCache_wipeBytes. reflexivity. Qed.

Lemma masterKey_Set_result (s : State) (k : string) (data : slice)
    (enc : list byte) :
  masterKey (Set_result s k data enc) = masterKey s.
Proof. unfold Set_result. rewrite masterKey_wipeBytes. reflexivity. Qed.

Lemma heap_Set_result_new (s : State) (k : string) (data : slice)
    (enc : list byte) :
  live s data ->
  heap (Set_result s k data enc) !! length (heap s) = Some enc.
Proof.
  intros Hlive. unfold Set_result. rewrite heap_wipeBytes_other.
  - cbn. apply list_lookup_middle. reflexivity.
  - destruct data as [a|]; [|discriminate]. cbn in Hlive.
    intros [= ->]. lia.
Qed.

Lemma not_all_zero_x01 (n : nat) (rest : list byte) :
  ~ all_zero (replicate (S n) Byte.x01 ++ rest).
Proof.
  unfold all_zero. cbn. intros H. apply Forall_cons in H.
  destruct H as [H _]. discriminate H.
Qed.

End SetAgain.

(** The store of [main] after its [Set]: the secret is buffer 0, now
    zeroed, and the ciphertext is buffer 1. *)
Lemma main_store_eq (crypto : Crypto) :
  main_store
  = Set_result (alloc (stringToBytes "my_super_secret_password") main_new).1
      "password" (Some 0%nat)
      (replicate 12 Byte.x01
       ++ gcm_Seal (deriveKey main_new "password") (replicate 12 Byte.x01)
            (stringToBytes "my_super_secret_password")).
Proof.
  unfold main_store. cbn [alloc]. unfold x01s. rewrite Set_ok by (cbn; lia).
  reflexivity.
Qed.

Lemma main_store_again_eq (crypto : Crypto) :
  main_store_again
  = Set_result (alloc (stringToBytes "another_secret") main_store).1
      "password" (Some 2%nat)
      (replicate 12 Byte.x01
       ++ gcm_Seal (deriveKey main_store "password") (replicate 12 Byte.x01)
            (stringToBytes "another_secret")).
Proof.
  assert (L : length (heap main_store) = 2%nat).
  { rewrite main_store_eq, length_heap_Set_result. reflexivity. }
  unfold main_store_again. cbn [alloc]. rewrite L.
  unfold x01s. rewrite Set_ok by (cbn; lia). cbn [fst].
  f_equal. f_equal. f_equal.
  unfold bytes_at. cbn [heap set_heap].
  rewrite list_lookup_middle by (symmetry; exact L). reflexivity.
Qed.

(** C2, in the scenario of [main] followed by a second
    [Set("password", ...)]: the entry is replaced (the identifier now
    refers to buffer 3 instead of buffer 1), and the buffer that held the
    first ciphertext still holds it, byte for byte, and is not all zero;
    the new per-item key is the old one.  Nothing of the previous entry is
    zeroed. *)
Theorem Set_again_leaves_old_ciphertext :
  forall crypto : Crypto,
  exists old : list byte,
    dataStore main_store !! "password" = Some 1%nat /\
    heap main_store !! 1%nat = Some old /\
    dataStore main_store_again !! "password" = Some 3%nat /\
    heap main_store_again !! 1%nat = Some old /\
    ~ all_zero old /\
    keyCache main_store_again !! "password" = keyCache main_store !! "password".
Proof.
  intros crypto. eexists.
  assert (L : length (heap main_store) = 2%nat).
  { rewrite main_store_eq, length_heap_Set_result. reflexivity. }
  assert (H1 : heap main_store !! 1%nat
               = Some (replicate 12 Byte.x01
                       ++ gcm_Seal (deriveKey main_new "password")
                            (replicate 12 Byte.x01)
                            (stringToBytes "my_super_secret_password"))).
  { rewrite main_store_eq.
    apply (heap_Set_result_new (alloc _ main_new).1).
    unfold live. vm_compute. lia. }
  split; [|split; [exact H1|split; [|split; [|split]]]].
  - rewrite main_store_eq, dataStore_Set_result. apply lookup_insert_eq.
  - rewrite main_store_again_eq, dataStore_Set_result. cbn [alloc fst heap set_heap].
    rewrite length_app, L. apply lookup_insert_eq.
  - rewrite main_store_again_eq, heap_Set_result_other.
    + cbn [alloc fst heap set_heap]. rewrite lookup_app_l by lia. exact H1.
    + cbn [alloc fst heap set_heap]. rewrite length_app, L. cbn. lia.
    + discriminate.
  - apply (not_all_zero_x01 11).
  - rewrite main_store_again_eq, keyCache_Set_result, lookup_insert_eq.
    transitivity (Some (deriveKey main_new "password")).
    + f_equal. apply deriveKey_masterKey. cbn [alloc fst masterKey set_heap].
      rewrite main_store_eq. rewrite masterKey_Set_result. reflexivity.
    + rewrite main_store_eq, keyCache_Set_result, lookup_insert_eq.
      reflexivity.
Qed.

(** C8, in the scenario of [main] followed by [Delete("password")]: when
    [delete(s.keyCache, key)] is reached, the local [itemKey] is 32 zero
    bytes and [keyCache] still maps "password" to the derived key it
    mapped it to before the call. *)
Theorem Delete_wipes_a_copy_main :
  forall crypto : Crypto,
    keyCache main_store !! "password" = Some (deriveKey main_new "password") /\
    let '(s2, itemKey) :=
      Delete_wipeKey (Delete_ciphertext main_store "password") "password" in
    itemKey = Some (replicate 32 x00) /\
    keyCache s2 !! "password" = Some (deriveKey main_new "password").
Proof.
  intros crypto.
  assert (Hk : keyCache main_store !! "password"
               = Some (deriveKey main_new "password")).
  { rewrite main_store_eq, keyCache_Set_result, lookup_insert_eq. reflexivity. }
  split; [exact Hk|].
  pose proof (Delete_wipes_a_copy main_store "password" _ Hk) as H.
  rewrite deriveKey_length in H. exact H.
Qed.

(** ** The theorems at concrete inputs *)

Lemma Set_Get_roundtrip_witness :
  live main_alloc (Some 0%nat) /\ (12 <= length (replicate 12 Byte.x01))%nat /\
  exists (s1 s2 : State) (l : loc),
    Set_ (crypto := toy_crypto) main_alloc "password" (Some 0%nat)
      (EntropyBytes (replicate 12 Byte.x01)) = (s1, None) /\
    bytes_at (heap s1) (Some 0%nat)
    = replicate (length (bytes_at (heap main_alloc) (Some 0%nat))) x00 /\
    Get (crypto := toy_crypto) s1 "password" = (s2, (Some l, true)) /\
    heap s2 !! l = Some (bytes_at (heap main_alloc) (Some 0%nat)).
Proof.
  split; [vm_compute; lia|]. split; [vm_compute; lia|].
  apply (Set_Get_roundtrip (crypto := toy_crypto)); vm_compute; lia.
Defined.

Lemma Get_reports_absence_witness :
  Get (crypto := toy_crypto) main_new "missing" = (main_new, (None, false)).
Proof.
  apply (proj1 (Get_reports_absence (crypto := toy_crypto) main_new "missing")).
  reflexivity.
Defined.

Lemma Set_both_or_neither_witness :
  Set_ (crypto := toy_crypto) main_alloc "password" (Some 0%nat) (EntropyFail 5)
  = (main_alloc, Some (ErrEntropy 5)).
Proof.
  apply (proj1 (Set_both_or_neither (crypto := toy_crypto) main_alloc
                  "password" (Some 0%nat) (EntropyFail 5))).
  vm_compute. reflexivity.
Defined.

Lemma GetAndUse_scoped_witness :
  exists s2 : State,
    GetAndUse (crypto := toy_crypto) (main_store (crypto := toy_crypto))
      "password" main_fn 0%nat
    = (s2, 24%nat, Returned None) /\
    heap s2 !! 2%nat = Some (replicate 24 x00).
Proof.
  assert (Hd : dataStore (main_store (crypto := toy_crypto)) !! "password"
               = Some 1%nat) by (vm_compute; reflexivity).
  assert (Hk : keyCache (main_store (crypto := toy_crypto)) !! "password"
               = Some (deriveKey (crypto := toy_crypto) main_new "password"))
    by (vm_compute; reflexivity).
  assert (D : decryptData (crypto := toy_crypto)
                (bytes_at (heap (main_store (crypto := toy_crypto))) (Some 1%nat))
                (deriveKey (crypto := toy_crypto) main_new "password")
              = Ok (stringToBytes "my_super_secret_password"))
    by (vm_compute; reflexivity).
  destruct (proj1 (GetAndUse_scoped (crypto := toy_crypto)
                     (main_store (crypto := toy_crypto)) "password"
                     main_fn 0%nat) _ _ _ Hd Hk D)
    as (s2 & HG & Hz & _).
  exists s2. split.
  - rewrite HG. reflexivity.
  - vm_compute in Hz. vm_compute. exact Hz.
Defined.

Example Delete_wipes_a_copy_toy :
  let '(s2, itemKey) :=
    Delete_wipeKey (Delete_ciphertext (main_store (crypto := toy_crypto))
                      "password") "password" in
  itemKey = Some (replicate 32 x00) /\
  keyCache s2 !! "password"
  = Some (map byte_of_Z [0; 0; 0; 0; 0; 0; 0; 0; 100; 114; 111; 119; 115; 115; 97; 112;
                         0; 0; 0; 0; 0; 0; 0; 16; 100; 114; 111; 119; 115; 115; 97; 112]).
Proof. vm_compute. split; reflexivity. Qed.

Lemma reachable_same_identifiers_witness :
  is_Some (dataStore (main_store (crypto := toy_crypto)) !! "password") <->
  is_Some (keyCache (main_store (crypto := toy_crypto)) !! "password").
Proof.
  apply (reachable_same_identifiers (crypto := toy_crypto) (U := unit)
           (main_store (crypto := toy_crypto)) tt).
  change (main_store (crypto := toy_crypto), tt)
    with (run_op (crypto := toy_crypto)
            (run_op (crypto := toy_crypto) (main_new, tt)
               (OpAlloc (stringToBytes "my_super_secret_password")))
            (OpSet "password" (Some 0%nat) (x01s 12))).
  apply reachable_step, reachable_step.
  apply (reachable_new [] 100 (x01s 32)). reflexivity.
Defined.

(** * Further properties of the code *)

(** ** Wiping *)

(** X1: [wipeBytes] zeroes the buffer its slice refers to, keeping its
    length, and changes nothing else: not the number of buffers, not any
    other buffer, not the mappings, the master key or the collector's
    setting; through a [nil] slice it changes nothing at all. *)
Theorem wipeBytes_footprint (sl : slice) (s : State) :
  bytes_at (heap (wipeBytes sl s)) sl
  = replicate (length (bytes_at (heap s) sl)) x00 /\
  length (heap (wipeBytes sl s)) = length (heap s) /\
  (forall l : loc, sl <> Some l -> heap (wipeBytes sl s) !! l = heap s !! l) /\
  dataStore (wipeBytes sl s) = dataStore s /\
  keyCache (wipeBytes sl s) = keyCache s /\
  masterKey (wipeBytes sl s) = masterKey s /\
  gcPercent (wipeBytes sl s) = gcPercent s /\
  wipeBytes None s = s.
Proof.
  split; [apply bytes_at_wipeBytes|].
  split; [apply length_heap_wipeBytes|].
  split; [intros l; apply heap_wipeBytes_other|].
  split; [apply dataStore_wipeBytes|].
  split; [apply keyCache_wipeBytes|].
  split; [apply masterKey_wipeBytes|].
  split; [apply gcPercent_wipeBytes|reflexivity].
Qed.

(** X2: [wipeKey] turns an array into as many zero bytes, whatever it
    held, and wiping twice is wiping once. *)
Theorem wipeKey_zeroes (key : list byte) :
  wipeKey key = replicate (length key) x00 /\
  all_zero (wipeKey key) /\
  length (wipeKey key) = length key /\
  wipeKey (wipeKey key) = wipeKey key.
Proof.
  unfold wipeKey. split; [apply zero_loop_spec|].
  split; [apply zero_loop_all_zero|].
  split; [apply zero_loop_length|apply zero_loop_idemp].
Qed.

(** ** Sealing and opening, from outside *)

Lemma copy_prefix (dst src : list byte) :
  (length dst <= length src)%nat -> copy dst src = take (length dst) src.
Proof.
  intros L. unfold copy. rewrite drop_ge by exact L. apply app_nil_r.
Qed.

Section AeadFacts.
Context {crypto : Crypto}.

(** X3: with a key of 32 bytes and a random source that delivers at least
    12 bytes, [encryptData] succeeds; the blob starts with the 12 bytes read
    as the nonce, and [decryptData] with the same key gives the data
    back. *)
Theorem encryptData_decryptData (bs plain key : list byte) :
  length key = 32%nat -> (12 <= length bs)%nat ->
  exists blob : list byte,
    encryptData (EntropyBytes bs) plain key = Ok blob /\
    take 12 blob = take 12 bs /\
    (12 <= length blob)%nat /\
    decryptData blob key = Ok plain.
Proof.
  intros Hk Hb.
  assert (Hn : copy (make 12) bs = take 12 bs).
  { rewrite copy_prefix; unfold make; rewrite length_replicate;
      [reflexivity|exact Hb]. }
  assert (Ln : length (take 12 bs) = 12%nat) by (rewrite length_take; lia).
  eexists. split; [apply encryptData_ok; assumption|]. rewrite Hn.
  split; [apply take_app_length'; symmetry; exact Ln|].
  split; [rewrite length_app; lia|].
  apply decryptData_sealed; assumption.
Qed.

(** X4: [encryptData] fails exactly when the key is not 16, 24 or 32
    bytes long, or the random source fails, or it delivers fewer than 12
    bytes; the data to encrypt plays no part in it. *)
Theorem encryptData_fails_iff (r : Entropy) (plain key : list byte) :
  (exists e : error, encryptData r plain key = Err e) <->
  (~ (length key = 16 \/ length key = 24 \/ length key = 32)%nat \/
   (exists c : nat, r = EntropyFail c) \/
   (exists bs : list byte, r = EntropyBytes bs /\ (length bs < 12)%nat)).
Proof.
  unfold encryptData, aes_NewCipher.
  destruct (decide (length key = 16 \/ length key = 24 \/ length key = 32)%nat)
    as [Hk|Hk]; cbn [mbind result_bind cipher_NewGCM].
  - destruct r as [c|bs]; cbn [ReadFull].
    + split; [intros _; right; left; eauto|eauto].
    + unfold gcm_NonceSize, make. rewrite length_replicate.
      destruct (decide (12 <= length bs)%nat) as [L|L]; cbn [mbind result_bind].
      * split; [intros [e [=]]|].
        intros [N|[[c [=]]|[bs' [[= <-] L']]]]; [tauto|lia].
      * split; [|eauto]. intros _. right. right. exists bs. split; [reflexivity|lia].
  - split; [intros _; left; exact Hk|eauto].
Qed.

(** X5: with a key of 32 bytes, [decryptData] refuses a blob of fewer
    than 12 bytes with "invalid ciphertext", and a longer blob that the
    AEAD does not open with the AEAD's error: no bytes are returned in
    either case. *)
Theorem decryptData_rejects (encrypted key : list byte) :
  length key = 32%nat ->
  ((length encrypted < 12)%nat ->
   decryptData encrypted key = Err ErrInvalidCiphertext) /\
  ((12 <= length encrypted)%nat ->
   gcm_Open key (take 12 encrypted) (drop 12 encrypted) = None ->
   decryptData encrypted key = Err ErrOpen).
Proof.
  intros Hk. unfold decryptData. rewrite aes_NewCipher_32 by exact Hk.
  cbn [mbind result_bind cipher_NewGCM]. unfold gcm_NonceSize.
  split.
  - intros L. destruct (decide _); [reflexivity|lia].
  - intros L Hopen. destruct (decide _); [lia|]. rewrite Hopen. reflexivity.
Qed.

(** The block of [deriveKey] for offset [i]: the first eight bytes of the
    identifier, padded with zeros, and the counter. *)
Lemma deriveKey_block_eq (id : string) (i : nat) :
  deriveKey_block id i
  = take 8 (copy (make 16) (stringToBytes id))
    ++ le_bytes64 (Z.of_nat i mod 2 ^ 64).
Proof.
  unfold deriveKey_block, PutUint64, aes_BlockSize. f_equal.
  apply copy_exact. rewrite length_drop, copy_length.
  unfold make. rewrite length_replicate. reflexivity.
Qed.

(** X6: the derived key depends on the identifier through its first eight
    bytes only: two identifiers that agree on them (after padding with
    zeros) get the same key from the same master key. *)
Theorem deriveKey_first_eight_bytes (s : State) (a b : string) :
  take 8 (copy (make 16) (stringToBytes a))
  = take 8 (copy (make 16) (stringToBytes b)) ->
  deriveKey s a = deriveKey s b.
Proof.
  intros E. apply deriveKey_blocks; rewrite !deriveKey_block_eq, E; reflexivity.
Qed.

End AeadFacts.

(** ** Reading does not disturb the store *)

Section Frames.
Context {crypto : Crypto}.

Lemma extends_refl (s : State) : extends s s.
Proof. unfold extends. repeat split; auto. Qed.

Lemma extends_alloc (b : list byte) (s : State) : extends s (alloc b s).1.
Proof.
  unfold extends. cbn. repeat split; auto.
  - rewrite length_app. lia.
  - intros l Hl. apply lookup_app_l. exact Hl.
Qed.

Lemma extends_Get (s : State) (k : string) : extends s (Get s k).1.
Proof.
  unfold Get. destruct (dataStore s !! k); [|apply extends_refl].
  destruct (keyCache s !! k); [|apply extends_refl].
  destruct (decryptData _ _); [apply extends_alloc|apply extends_refl].
Qed.

Lemma extends_GetAndUse {U : Type} (s : State) (k : string)
    (fn : callback U) (u : U) :
  extends s (GetAndUse s k fn u).1.1.
Proof.
  unfold GetAndUse.
  destruct (Get s k) as [s1 [sl [|]]] eqn:G; [|].
  - apply Get_true_inv in G.
    destruct G as (l0 & itemKey & plain & _ & _ & _ & -> & ->).
    destruct (fn _ u) as [[after u'] out]. cbn [fst].
    unfold extends. cbn. rewrite length_alter, length_insert, length_app.
    repeat split; auto; [lia|].
    intros l Hl.
    rewrite list_lookup_alter_ne, list_lookup_insert_ne by lia.
    apply lookup_app_l. exact Hl.
  - apply Get_false_inv in G. destruct G as [-> _]. apply extends_refl.
Qed.

(** What [Get] hands out is decided by the two entries of the identifier
    and by the bytes of its ciphertext buffer. *)
Lemma Get_plain_eq (s : State) (k : string) :
  Get_plain s k =
  match dataStore s !! k, keyCache s !! k with
  | Some l, Some itemKey =>
      match decryptData (bytes_at (heap s) (Some l)) itemKey with
      | Ok plain => Some plain
      | Err _ => None
      end
  | _, _ => None
  end.
Proof.
  unfold Get_plain, Get. destruct (dataStore s !! k) as [l|]; [|reflexivity].
  destruct (keyCache s !! k) as [itemKey|]; [|reflexivity].
  destruct (decryptData _ _) as [plain|e]; [|reflexivity].
  cbn. rewrite list_lookup_middle by reflexivity. reflexivity.
Qed.

Lemma Get_plain_extends (s s' : State) (k : string) :
  extends s s' ->
  (forall l : loc, dataStore s !! k = Some l -> (l < length (heap s))%nat) ->
  Get_plain s' k = Get_plain s k.
Proof.
  intros (Hd & Hk & _ & _ & _ & Hh) Hl. rewrite !Get_plain_eq, Hd, Hk.
  destruct (dataStore s !! k) as [l|] eqn:E; [|reflexivity].
  unfold bytes_at. rewrite (Hh l (Hl l eq_refl)). reflexivity.
Qed.

(** X8: [Get] changes neither mapping, nor the master key, nor the
    collector's setting, nor any buffer that exists; it adds at most one
    buffer, the one it returns.  So it can be repeated: a second [Get] of
    any identifier whose ciphertext buffer exists hands out the same bytes
    as it would have before. *)
Theorem Get_reads_only (s : State) (k k' : string) :
  dataStore (Get s k).1 = dataStore s /\
  keyCache (Get s k).1 = keyCache s /\
  masterKey (Get s k).1 = masterKey s /\
  gcPercent (Get s k).1 = gcPercent s /\
  (length (heap s) <= length (heap (Get s k).1) <= S (length (heap s)))%nat /\
  (forall l : loc, (l < length (heap s))%nat ->
                   heap (Get s k).1 !! l = heap s !! l) /\
  ((forall l : loc, dataStore s !! k' = Some l -> (l < length (heap s))%nat) ->
   Get_plain (Get s k).1 k' = Get_plain s k').
Proof.
  pose proof (extends_Get s k) as E.
  destruct E as (Hd & Hk & Hm & Hg & Hlen & Hh).
  repeat (split; [assumption|]).
  split; [split; [exact Hlen|]|split; [exact Hh|]].
  - unfold Get. destruct (dataStore s !! k); [|cbn; lia].
    destruct (keyCache s !! k); [|cbn; lia].
    destruct (decryptData _ _); cbn; [rewrite length_app; cbn; lia|lia].
  - apply Get_plain_extends. apply extends_Get.
Qed.

(** X9: [GetAndUse] leaves the store able to give the secret again.
    Whatever the function does with the bytes it is given, and although
    they are wiped afterwards, the mappings and every buffer that existed
    are unchanged, and [Get] of any identifier whose ciphertext buffer
    exists hands out what it would have before. *)
Theorem GetAndUse_keeps_secrets {U : Type} (s : State) (k k' : string)
    (fn : callback U) (u : U) :
  (forall l : loc, dataStore s !! k' = Some l -> (l < length (heap s))%nat) ->
  dataStore (GetAndUse s k fn u).1.1 = dataStore s /\
  keyCache (GetAndUse s k fn u).1.1 = keyCache s /\
  (forall l : loc, (l < length (heap s))%nat ->
                   heap (GetAndUse s k fn u).1.1 !! l = heap s !! l) /\
  Get_plain (GetAndUse s k fn u).1.1 k' = Get_plain s k'.
Proof.
  intros Hl. pose proof (extends_GetAndUse s k fn u) as E.
  split; [apply E|]. split; [apply E|]. split; [apply E|].
  apply Get_plain_extends; assumption.
Qed.

End Frames.

(** ** Delete and Set touch one identifier *)

Section OneIdentifier.
Context {crypto : Crypto}.

Lemma heap_Delete (s : State) (k : string) :
  heap (Delete s k)
  = match dataStore s !! k with
    | Some l => alter zero_loop l (heap s)
    | None => heap s
    end.
Proof.
  unfold Delete, Delete_ciphertext, Delete_wipeKey.
  destruct (dataStore s !! k) as [l|];
    cbn [keyCache set_dataStore wipeBytes set_heap];
    destruct (keyCache s !! k); reflexivity.
Qed.

Lemma masterKey_Delete (s : State) (k : string) :
  masterKey (Delete s k) = masterKey s.
Proof.
  unfold Delete, Delete_ciphertext, Delete_wipeKey.
  destruct (dataStore s !! k) as [l|];
    cbn [keyCache set_dataStore wipeBytes set_heap];
    destruct (keyCache s !! k); reflexivity.
Qed.

Lemma gcPercent_Delete (s : State) (k : string) :
  gcPercent (Delete s k) = gcPercent s.
Proof.
  unfold Delete, Delete_ciphertext, Delete_wipeKey.
  destruct (dataStore s !! k) as [l|];
    cbn [keyCache set_dataStore wipeBytes set_heap];
    destruct (keyCache s !! k); reflexivity.
Qed.

Lemma length_heap_Delete (s : State) (k : string) :
  length (heap (Delete s k)) = length (heap s).
Proof.
  rewrite heap_Delete. destruct (dataStore s !! k); [apply length_alter|reflexivity].
Qed.

(** X12: after [Delete(k)], in any state, [Get(k)] answers [(nil, false)]
    and [GetAndUse(k, fn)] returns "key not found" without calling [fn],
    and a second [Delete(k)] changes nothing. *)
Theorem Delete_then_missing {U : Type} (s : State) (k : string)
    (fn : callback U) (u : U) :
  Get (Delete s k) k = (Delete s k, (None, false)) /\
  GetAndUse (Delete s k) k fn u
  = (Delete s k, u, Returned (Some ErrKeyNotFound)) /\
  Delete (Delete s k) k = Delete s k.
Proof.
  assert (Hd : dataStore (Delete s k) !! k = None).
  { rewrite dataStore_Delete. apply lookup_delete_eq. }
  assert (Hk : keyCache (Delete s k) !! k = None).
  { rewrite keyCache_Delete. apply lookup_delete_eq. }
  assert (G : Get (Delete s k) k = (Delete s k, (None, false))).
  { unfold Get. rewrite Hd. reflexivity. }
  split; [exact G|]. split.
  - unfold GetAndUse. rewrite G. reflexivity.
  - unfold Delete at 1, Delete_ciphertext, Delete_wipeKey.
    rewrite Hd, Hk. reflexivity.
Qed.

(** X13: [Delete(k)] leaves every other identifier alone: its two entries
    are unchanged, and if its ciphertext is not in the buffer of [k], [Get]
    hands out for it what it would have before.  The master key and the
    collector's setting are unchanged too. *)
Theorem Delete_other_identifier (s : State) (k k' : string) :
  k' <> k ->
  (forall l : loc, dataStore s !! k' = Some l -> dataStore s !! k <> Some l) ->
  dataStore (Delete s k) !! k' = dataStore s !! k' /\
  keyCache (Delete s k) !! k' = keyCache s !! k' /\
  masterKey (Delete s k) = masterKey s /\
  gcPercent (Delete s k) = gcPercent s /\
  Get_plain (Delete s k) k' = Get_plain s k'.
Proof.
  intros Hne Hbuf.
  assert (Hd : dataStore (Delete s k) !! k' = dataStore s !! k').
  { rewrite dataStore_Delete. apply lookup_delete_ne. congruence. }
  assert (Hk : keyCache (Delete s k) !! k' = keyCache s !! k').
  { rewrite keyCache_Delete. apply lookup_delete_ne. congruence. }
  split; [exact Hd|]. split; [exact Hk|].
  split; [apply masterKey_Delete|]. split; [apply gcPercent_Delete|].
  rewrite !Get_plain_eq, Hd, Hk.
  destruct (dataStore s !! k') as [l'|] eqn:E; [|reflexivity].
  unfold bytes_at. rewrite heap_Delete.
  destruct (dataStore s !! k) as [l|] eqn:El; [|reflexivity].
  rewrite list_lookup_alter_ne; [reflexivity|].
  intros ->. exact (Hbuf l' eq_refl eq_refl).
Qed.

(** X14: [Set(k, data)] leaves every other identifier alone: if the
    ciphertext buffer of [k'] exists and is not the buffer the caller
    passes as [data], then, whether [Set] succeeds or fails, the entries of
    [k'] are unchanged and [Get(k')] hands out what it would have
    before. *)
Theorem Set_other_identifier (s : State) (k k' : string) (sl : slice)
    (r : Entropy) :
  k' <> k ->
  (forall l : loc, dataStore s !! k' = Some l ->
                   (l < length (heap s))%nat /\ sl <> Some l) ->
  dataStore (Set_ s k sl r).1 !! k' = dataStore s !! k' /\
  keyCache (Set_ s k sl r).1 !! k' = keyCache s !! k' /\
  Get_plain (Set_ s k sl r).1 k' = Get_plain s k'.
Proof.
  intros Hne Hbuf. rewrite Set_unfold.
  destruct (encryptData r _ _) as [enc|e]; cbn [fst]; [|auto].
  assert (Hd : dataStore (Set_result s k sl enc) !! k' = dataStore s !! k').
  { rewrite dataStore_Set_result. apply lookup_insert_ne. congruence. }
  assert (Hk : keyCache (Set_result s k sl enc) !! k' = keyCache s !! k').
  { rewrite keyCache_Set_result. apply lookup_insert_ne. congruence. }
  split; [exact Hd|]. split; [exact Hk|].
  rewrite !Get_plain_eq, Hd, Hk.
  destruct (dataStore s !! k') as [l'|] eqn:E; [|reflexivity].
  destruct (Hbuf l' eq_refl) as [Hl Hsl].
  unfold bytes_at. rewrite heap_Set_result_other by assumption. reflexivity.
Qed.



End OneIdentifier.

(** ** What Wipe leaves *)

Section WipeFrame.
Context {crypto : Crypto}.

Lemma length_heap_Wipe (s : State) : length (heap (Wipe s)) = length (heap s).
Proof.
  rewrite Wipe_unfold. cbn [heap set_masterKey].
  destruct (Wipe_keys_spec (Wipe_data s)) as (_ & _ & _ & -> & _).
  apply Wipe_data_spec.
Qed.

Lemma heap_Wipe (s : State) (a : loc) :
  heap (Wipe s) !! a
  = (if decide (a ∈ (map_to_list (dataStore s)).*2) then zero_loop else id)
      <$> heap s !! a.
Proof.
  rewrite Wipe_unfold. cbn [heap set_masterKey].
  destruct (Wipe_keys_spec (Wipe_data s)) as (_ & _ & _ & -> & _).
  unfold Wipe_data. apply Wipe_data_heap.
Qed.

(** X17: [Wipe()] writes to the ciphertext buffers only.  A buffer that no
    entry of [dataStore] refers to, such as a plaintext that [Get] handed
    out earlier, keeps its bytes; no buffer appears or disappears. *)
Theorem Wipe_other_buffers (s : State) (a : loc) :
  (forall k : string, dataStore s !! k <> Some a) ->
  heap (Wipe s) !! a = heap s !! a /\
  length (heap (Wipe s)) = length (heap s).
Proof.
  intros Hfree. split; [|apply length_heap_Wipe].
  rewrite heap_Wipe. destruct (decide _) as [Hin|_].
  - exfalso. apply list_elem_of_fmap in Hin. destruct Hin as ([k l] & -> & Hin).
    apply elem_of_map_to_list in Hin. exact (Hfree k Hin).
  - destruct (heap s !! a); reflexivity.
Qed.

(** X18: once [Wipe()] has run, the keys that [deriveKey] gives are those
    of the all-zero master key: two stores made with different random
    master keys derive the same key for the same identifier. *)
Theorem Wipe_forgets_master_key (s1 s2 : State) (id : string) :
  length (masterKey s1) = length (masterKey s2) ->
  deriveKey (Wipe s1) id = deriveKey (Wipe s2) id.
Proof.
  intros L. apply deriveKey_masterKey. rewrite !masterKey_Wipe, L. reflexivity.
Qed.

End WipeFrame.

(** ** What every call keeps true *)

Section Invariant.
Context {crypto : Crypto}.

Lemma store_inv_extends (s s' : State) :
  extends s s' -> store_inv s -> store_inv s'.
Proof.
  intros (Hd & Hk & Hm & Hg & Hlen & _) (Ig & Im & Ik & Il & Ii).
  unfold store_inv. rewrite Hd, Hk, Hm, Hg.
  split; [exact Ig|]. split; [exact Im|]. split; [|split].
  - intros k key Hkey. rewrite (Ik k key Hkey).
    apply deriveKey_masterKey. symmetry. exact Hm.
  - intros k l Hl. specialize (Il k l Hl). lia.
  - exact Ii.
Qed.

Lemma store_inv_Set (s : State) (k : string) (sl : slice) (r : Entropy) :
  store_inv s -> store_inv (Set_ s k sl r).1.
Proof.
  intros (Ig & Im & Ik & Il & Ii). rewrite Set_unfold.
  destruct (encryptData r _ _) as [enc|e]; cbn [fst];
    [|unfold store_inv; auto].
  unfold store_inv.
  rewrite dataStore_Set_result, keyCache_Set_result, masterKey_Set_result,
    length_heap_Set_result.
  split; [unfold Set_result; rewrite gcPercent_wipeBytes; exact Ig|].
  split; [exact Im|]. split; [|split].
  - intros k0 key Hkey.
    assert (E : deriveKey (Set_result s k sl enc) k0 = deriveKey s k0).
    { apply deriveKey_masterKey, masterKey_Set_result. }
    rewrite E. destruct (decide (k0 = k)) as [->|Hne].
    + rewrite lookup_insert_eq in Hkey. congruence.
    + rewrite lookup_insert_ne in Hkey by congruence. apply Ik, Hkey.
  - intros k0 l Hl. destruct (decide (k0 = k)) as [->|Hne].
    + rewrite lookup_insert_eq in Hl. injection Hl as <-. lia.
    + rewrite lookup_insert_ne in Hl by congruence.
      specialize (Il k0 l Hl). lia.
  - intros k1 k2 l H1 H2.
    destruct (decide (k1 = k)) as [->|N1], (decide (k2 = k)) as [->|N2];
      [reflexivity| | |].
    + rewrite lookup_insert_eq in H1. injection H1 as <-.
      rewrite lookup_insert_ne in H2 by congruence.
      specialize (Il k2 _ H2). lia.
    + rewrite lookup_insert_eq in H2. injection H2 as <-.
      rewrite lookup_insert_ne in H1 by congruence.
      specialize (Il k1 _ H1). lia.
    + rewrite lookup_insert_ne in H1, H2 by congruence.
      exact (Ii k1 k2 l H1 H2).
Qed.

Lemma store_inv_Delete (s : State) (k : string) :
  store_inv s -> store_inv (Delete s k).
Proof.
  intros (Ig & Im & Ik & Il & Ii). unfold store_inv.
  rewrite gcPercent_Delete, masterKey_Delete, dataStore_Delete,
    keyCache_Delete, length_heap_Delete.
  split; [exact Ig|]. split; [exact Im|]. split; [|split].
  - intros k0 key Hkey. apply lookup_delete_Some in Hkey.
    destruct Hkey as [_ Hkey]. rewrite (Ik k0 key Hkey).
    apply deriveKey_masterKey. symmetry. apply masterKey_Delete.
  - intros k0 l Hl. apply lookup_delete_Some in Hl. apply (Il k0 l), Hl.
  - intros k1 k2 l H1 H2. apply lookup_delete_Some in H1, H2.
    apply (Ii k1 k2 l); [apply H1|apply H2].
Qed.

Lemma store_inv_Wipe (s : State) : store_inv s -> store_inv (Wipe s).
Proof.
  intros (Ig & Im & _). unfold store_inv.
  rewrite gcPercent_Wipe, dataStore_Wipe, keyCache_Wipe, masterKey_Wipe,
    length_replicate.
  split; [exact Ig|]. split; [exact Im|].
  split; [|split]; intros *; rewrite lookup_empty; discriminate.
Qed.

Lemma store_inv_new (h : list (list byte)) (gc : Z) (r : Entropy) (s : State) :
  NewSecureStore h gc r = Ok s -> store_inv s.
Proof.
  unfold NewSecureStore. destruct r as [c|bs]; cbn [ReadFull mbind result_bind];
    [discriminate|].
  destruct (decide _); cbn [mbind result_bind]; [|discriminate].
  intros [= <-]. unfold store_inv, registerCleanup, set_gcPercent.
  cbn [gcPercent masterKey dataStore keyCache heap].
  split; [reflexivity|]. split; [rewrite copy_length; apply length_replicate|].
  split; [|split]; intros *; rewrite lookup_empty; discriminate.
Qed.

Lemma store_inv_run_op {U : Type} (s : State) (u : U) (op : Op U) :
  store_inv s -> store_inv (run_op (s, u) op).1.
Proof.
  intros I. destruct op as [b|k sl r|k|k fn|k|]; cbn [run_op fst].
  - eapply store_inv_extends; [apply extends_alloc|exact I].
  - apply store_inv_Set, I.
  - eapply store_inv_extends; [apply extends_Get|exact I].
  - pose proof (extends_GetAndUse s k fn u) as E.
    destruct (GetAndUse s k fn u) as [[s' u'] out]. cbn [fst] in *.
    eapply store_inv_extends; [exact E|exact I].
  - apply store_inv_Delete, I.
  - apply store_inv_Wipe, I.
Qed.

Lemma reachable_store_inv {U : Type} (su : State * U) :
  reachable su -> store_inv su.1.
Proof.
  induction 1 as [h gc r s u Hnew|[s u] op _ IH].
  - eapply store_inv_new. exact Hnew.
  - apply store_inv_run_op. exact IH.
Qed.

(** X19: no call of the package restores the collector.  In every state
    reached from a new store by [Set], [Get], [GetAndUse], [Delete] and
    [Wipe], the collector's setting is -1, as [NewSecureStore] left it. *)
Theorem reachable_gc_suspended {U : Type} (s : State) (u : U) :
  reachable (s, u) -> gcPercent s = -1.
Proof. intros R. apply (reachable_store_inv (s, u) R). Qed.

(** X20: the cached keys are never stale.  In every reachable state the
    master key has 32 bytes, and the key cached for an identifier has 32
    bytes and is the one [deriveKey] gives for it from the current master
    key. *)
Theorem reachable_keys_coherent {U : Type} (s : State) (u : U) :
  reachable (s, u) ->
  length (masterKey s) = 32%nat /\
  forall (k : string) (key : list byte),
    keyCache s !! k = Some key ->
    key = deriveKey s k /\ length key = 32%nat.
Proof.
  intros R. destruct (reachable_store_inv (s, u) R) as (_ & Im & Ik & _).
  split; [exact Im|]. intros k key Hkey.
  rewrite (Ik k key Hkey). split; [reflexivity|apply deriveKey_length].
Qed.

(** X21: in every reachable state each identifier's ciphertext slice
    refers to a buffer that exists, and two identifiers never share a
    buffer. *)
Theorem reachable_buffers_distinct {U : Type} (s : State) (u : U) :
  reachable (s, u) ->
  (forall (k : string) (l : loc),
      dataStore s !! k = Some l -> is_Some (heap s !! l)) /\
  (forall (k k' : string) (l : loc),
      dataStore s !! k = Some l -> dataStore s !! k' = Some l -> k = k').
Proof.
  intros R. destruct (reachable_store_inv (s, u) R) as (_ & _ & _ & Il & Ii).
  split; [|exact Ii].
  intros k l Hl. apply lookup_lt_is_Some_2. exact (Il k l Hl).
Qed.


End Invariant.

(** ** Making a store *)

Section Construction.
Context {crypto : Crypto}.

(** X23: [NewSecureStore] succeeds exactly when the random source delivers
    32 bytes.  The store it returns has those bytes as master key, two
    empty mappings, so that [Get] of any identifier answers [(nil, false)],
    the buffers of the process untouched, and the collector suspended. *)
Theorem NewSecureStore_spec (h : list (list byte)) (gc : Z) (r : Entropy) :
  ((exists s : State, NewSecureStore h gc r = Ok s) <->
   (exists bs : list byte, r = EntropyBytes bs /\ (32 <= length bs)%nat)) /\
  forall s : State,
    NewSecureStore h gc r = Ok s ->
    heap s = h /\ gcPercent s = -1 /\ dataStore s = ∅ /\ keyCache s = ∅ /\
    (exists bs : list byte, r = EntropyBytes bs /\ masterKey s = take 32 bs) /\
    forall k : string, Get s k = (s, (None, false)).
Proof.
  unfold NewSecureStore. destruct r as [c|bs]; cbn [ReadFull mbind result_bind].
  - split; [|discriminate]. split; [intros [s [=]]|intros (bs & [=] & _)].
  - destruct (decide (length (make 32) <= length bs)%nat) as [L|L];
      unfold make in L; rewrite length_replicate in L;
      cbn [mbind result_bind].
    + split; [split; eauto|].
      intros s [= <-]. unfold registerCleanup, set_gcPercent.
      cbn [gcPercent masterKey dataStore keyCache heap].
      repeat (split; [reflexivity|]). split.
      * exists bs. split; [reflexivity|].
        rewrite copy_prefix; unfold make; rewrite length_replicate;
          [reflexivity|exact L].
      * intros k. unfold Get. cbn [dataStore]. rewrite lookup_empty. reflexivity.
    + split; [|discriminate].
      split; [intros [s [=]]|intros (bs' & [= <-] & L'); lia].
Qed.

End Construction.

(** ** SecureString *)

Lemma length_list_byte_of_string (str : string) :
  length (String.list_byte_of_string str) = String.length str.
Proof.
  unfold String.list_byte_of_string. rewrite length_map.
  induction str as [|c str IH]; [reflexivity|]. cbn. rewrite IH. reflexivity.
Qed.

Lemma stringToBytes_eq (str : string) :
  stringToBytes str = String.list_byte_of_string str.
Proof.
  unfold stringToBytes. apply copy_exact.
  unfold make. rewrite length_replicate, length_list_byte_of_string. reflexivity.
Qed.

(** X24: a [SecureString] gives back the string it was made from, and
    making one changes no buffer that exists. *)
Theorem SecureString_roundtrip (str : string) (h : list (list byte)) :
  SecureString_Get (NewSecureString str h).1 (NewSecureString str h).2 = str /\
  bytes_at (NewSecureString str h).1 (data (NewSecureString str h).2)
  = String.list_byte_of_string str /\
  forall l : loc, (l < length h)%nat ->
                  (NewSecureString str h).1 !! l = h !! l.
Proof.
  unfold SecureString_Get, NewSecureString. cbn [fst snd data bytes_at].
  rewrite list_lookup_middle by reflexivity. cbn [default from_option id].
  rewrite stringToBytes_eq.
  split; [apply String.string_of_list_byte_of_string|].
  split; [reflexivity|]. intros l Hl. apply lookup_app_l. exact Hl.
Qed.

(** X25: [SecureString.Wipe] zeroes the buffer of the string, keeping its
    length, and drops the slice, so that [Get] then gives the empty string;
    no other buffer changes, and a second [Wipe] changes nothing. *)
Theorem SecureString_Wipe_spec (h : list (list byte)) (ss : SecureString) :
  SecureString_Get (SecureString_Wipe h ss).1 (SecureString_Wipe h ss).2
  = EmptyString /\
  data (SecureString_Wipe h ss).2 = None /\
  bytes_at (SecureString_Wipe h ss).1 (data ss)
  = replicate (length (bytes_at h (data ss))) x00 /\
  (forall l : loc, data ss <> Some l -> (SecureString_Wipe h ss).1 !! l = h !! l) /\
  SecureString_Wipe (SecureString_Wipe h ss).1 (SecureString_Wipe h ss).2
  = SecureString_Wipe h ss.
Proof.
  unfold SecureString_Get, SecureString_Wipe. cbn [fst snd data bytes_at].
  split; [reflexivity|]. split; [reflexivity|]. split; [|split; [|reflexivity]].
  - destruct (data ss) as [l|]; [|reflexivity]. unfold bytes_at.
    rewrite list_lookup_alter_eq.
    destruct (h !! l) as [b|]; cbn; [apply zero_loop_spec|reflexivity].
  - intros l Hl. destruct (data ss) as [l0|]; [|reflexivity].
    apply list_lookup_alter_ne. congruence.
Qed.

(** ** The program *)

Section MainFacts.
Context {crypto : Crypto}.


Lemma NewSecureStore_ok (bs : list byte) :
  (32 <= length bs)%nat ->
  NewSecureStore [] 100 (EntropyBytes bs)
  = Ok (mkState [] (-1) (copy (make 32) bs) ∅ ∅).
Proof.
  intros L. unfold NewSecureStore. rewrite ReadFull_ok; [reflexivity|].
  unfold make. rewrite length_replicate. exact L.
Qed.


End MainFacts.

Section MainFailure.
Context {crypto : Crypto}.

(** X27: when the random source fails, [main] ends in [log.Fatal] with
    that error.  If it fails for the master key, no store was made.  If it
    fails for the nonce, [Set] has returned before wiping and the deferred
    [Wipe()] does not run: the process ends with the secret in its buffer
    in clear and with the master key, the 32 bytes read, not zeroed. *)
Theorem main_fatal_leaves_secrets (bs_key : list byte) (c : nat)
    (r : Entropy) :
  main (EntropyFail c) r = MainFatal (ErrEntropy c) None /\
  ((32 <= length bs_key)%nat ->
   main (EntropyBytes bs_key) (EntropyFail c)
   = MainFatal (ErrEntropy c)
       (Some (mkState [stringToBytes "my_super_secret_password"] (-1)
                (take 32 bs_key) ∅ ∅))).
Proof.
  split; [reflexivity|]. intros L. unfold main.
  rewrite NewSecureStore_ok by exact L. cbn [alloc heap set_heap app length].
  rewrite Set_unfold. unfold encryptData.
  rewrite aes_NewCipher_32 by apply deriveKey_length.
  cbn [mbind result_bind cipher_NewGCM ReadFull].
  unfold set_heap. cbn [gcPercent masterKey dataStore keyCache].
  rewrite copy_prefix by (unfold make; rewrite length_replicate; exact L).
  unfold make. rewrite length_replicate. reflexivity.
Qed.

End MainFailure.

(** ** The further properties at concrete inputs *)

Lemma main_store_reachable :
  reachable (crypto := toy_crypto) (main_store (crypto := toy_crypto), tt).
Proof.
  change (main_store (crypto := toy_crypto), tt)
    with (run_op (crypto := toy_crypto)
            (run_op (crypto := toy_crypto) (main_new, tt)
               (OpAlloc (stringToBytes "my_super_secret_password")))
            (OpSet "password" (Some 0%nat) (x01s 12))).
  apply reachable_step, reachable_step.
  apply (reachable_new [] 100 (x01s 32)). reflexivity.
Qed.

Lemma encryptData_decryptData_witness :
  exists blob : list byte,
    encryptData (crypto := toy_crypto) (EntropyBytes (replicate 12 Byte.x01))
      (stringToBytes "secret") (replicate 32 Byte.x02) = Ok blob /\
    take 12 blob = take 12 (replicate 12 Byte.x01) /\
    (12 <= length blob)%nat /\
    decryptData (crypto := toy_crypto) blob (replicate 32 Byte.x02)
    = Ok (stringToBytes "secret").
Proof.
  apply (encryptData_decryptData (crypto := toy_crypto)); vm_compute;
    [reflexivity|lia].
Defined.

Lemma decryptData_rejects_witness :
  ((length (@nil byte) < 12)%nat ->
   decryptData (crypto := toy_crypto) [] (replicate 32 Byte.x02)
   = Err ErrInvalidCiphertext) /\
  ((12 <= length (@nil byte))%nat ->
   gcm_Open (Crypto := toy_crypto) (replicate 32 Byte.x02) (take 12 []) (drop 12 [])
   = None ->
   decryptData (crypto := toy_crypto) [] (replicate 32 Byte.x02) = Err ErrOpen).
Proof.
  apply (decryptData_rejects (crypto := toy_crypto)). reflexivity.
Defined.

Lemma deriveKey_first_eight_bytes_witness :
  deriveKey (crypto := toy_crypto) main_new "password1"
  = deriveKey (crypto := toy_crypto) main_new "password2".
Proof.
  apply (deriveKey_first_eight_bytes (crypto := toy_crypto)).
  vm_compute. reflexivity.
Defined.

Lemma GetAndUse_keeps_secrets_witness :
  dataStore (GetAndUse (crypto := toy_crypto) (main_store (crypto := toy_crypto))
               "password" main_fn 0%nat).1.1
  = dataStore (main_store (crypto := toy_crypto)) /\
  keyCache (GetAndUse (crypto := toy_crypto) (main_store (crypto := toy_crypto))
              "password" main_fn 0%nat).1.1
  = keyCache (main_store (crypto := toy_crypto)) /\
  (forall l : loc,
      (l < length (heap (main_store (crypto := toy_crypto))))%nat ->
      heap (GetAndUse (crypto := toy_crypto) (main_store (crypto := toy_crypto))
              "password" main_fn 0%nat).1.1 !! l
      = heap (main_store (crypto := toy_crypto)) !! l) /\
  Get_plain (crypto := toy_crypto)
    (GetAndUse (crypto := toy_crypto) (main_store (crypto := toy_crypto))
       "password" main_fn 0%nat).1.1 "password"
  = Get_plain (crypto := toy_crypto) (main_store (crypto := toy_crypto))
      "password".
Proof.
  apply (GetAndUse_keeps_secrets (crypto := toy_crypto)).
  intros l H. vm_compute in H. injection H as <-. vm_compute. lia.
Defined.

Lemma Delete_present_witness :
  heap (Delete (main_store (crypto := toy_crypto)) "password") !! 1%nat
  = Some (replicate
            (length (replicate 12 Byte.x01
                     ++ stringToBytes "my_super_secret_password" ++ toy_tag))
            x00) /\
  dataStore (Delete (main_store (crypto := toy_crypto)) "password") !! "password"
  = None /\
  keyCache (Delete (main_store (crypto := toy_crypto)) "password") !! "password"
  = None /\
  Get (crypto := toy_crypto)
    (Delete (main_store (crypto := toy_crypto)) "password") "password"
  = (Delete (main_store (crypto := toy_crypto)) "password", (None, false)).
Proof.
  apply (Delete_present (crypto := toy_crypto)); vm_compute; reflexivity.
Defined.

Lemma Delete_absent_witness : Delete main_new "missing" = main_new.
Proof. apply Delete_absent; reflexivity. Defined.

Lemma Delete_other_identifier_witness :
  dataStore (Delete (main_store_two (crypto := toy_crypto)) "token") !! "password"
  = dataStore (main_store_two (crypto := toy_crypto)) !! "password" /\
  keyCache (Delete (main_store_two (crypto := toy_crypto)) "token") !! "password"
  = keyCache (main_store_two (crypto := toy_crypto)) !! "password" /\
  masterKey (Delete (main_store_two (crypto := toy_crypto)) "token")
  = masterKey (main_store_two (crypto := toy_crypto)) /\
  gcPercent (Delete (main_store_two (crypto := toy_crypto)) "token")
  = gcPercent (main_store_two (crypto := toy_crypto)) /\
  Get_plain (crypto := toy_crypto)
    (Delete (main_store_two (crypto := toy_crypto)) "token") "password"
  = Get_plain (crypto := toy_crypto) (main_store_two (crypto := toy_crypto))
      "password".
Proof.
  apply (Delete_other_identifier (crypto := toy_crypto)); [discriminate|].
  intros l H H'. vm_compute in H, H'. congruence.
Defined.

Lemma Set_other_identifier_witness :
  dataStore (Set_ (crypto := toy_crypto) (main_store (crypto := toy_crypto))
               "token" (Some 0%nat) (x01s 12)).1 !! "password"
  = dataStore (main_store (crypto := toy_crypto)) !! "password" /\
  keyCache (Set_ (crypto := toy_crypto) (main_store (crypto := toy_crypto))
              "token" (Some 0%nat) (x01s 12)).1 !! "password"
  = keyCache (main_store (crypto := toy_crypto)) !! "password" /\
  Get_plain (crypto := toy_crypto)
    (Set_ (crypto := toy_crypto) (main_store (crypto := toy_crypto))
       "token" (Some 0%nat) (x01s 12)).1 "password"
  = Get_plain (crypto := toy_crypto) (main_store (crypto := toy_crypto))
      "password".
Proof.
  apply (Set_other_identifier (crypto := toy_crypto)); [discriminate|].
  intros l H. vm_compute in H. injection H as <-.
  split; [vm_compute; lia|discriminate].
Defined.


Lemma Wipe_zeroes_ciphertexts_witness :
  heap (Wipe (main_store (crypto := toy_crypto))) !! 1%nat
  = Some (replicate
            (length (replicate 12 Byte.x01
                     ++ stringToBytes "my_super_secret_password" ++ toy_tag))
            x00).
Proof.
  apply (Wipe_zeroes_ciphertexts (main_store (crypto := toy_crypto)) "password");
    vm_compute; reflexivity.
Defined.

Lemma Wipe_other_buffers_witness :
  heap (Wipe (main_store (crypto := toy_crypto))) !! 0%nat
  = heap (main_store (crypto := toy_crypto)) !! 0%nat /\
  length (heap (Wipe (main_store (crypto := toy_crypto))))
  = length (heap (main_store (crypto := toy_crypto))).
Proof.
  apply (Wipe_other_buffers (main_store (crypto := toy_crypto)) 0%nat).
  intros k H. rewrite (main_store_eq toy_crypto), dataStore_Set_result in H.
  apply lookup_insert_Some in H. destruct H as [[_ E]|[_ E]].
  - vm_compute in E. discriminate.
  - change (dataStore _) with (∅ : gmap string loc) in E.
    rewrite lookup_empty in E. discriminate.
Defined.

Lemma Wipe_forgets_master_key_witness :
  deriveKey (crypto := toy_crypto) (Wipe main_new) "password"
  = deriveKey (crypto := toy_crypto)
      (Wipe (set_masterKey (replicate 32 Byte.xff) main_new)) "password".
Proof.
  apply (Wipe_forgets_master_key (crypto := toy_crypto)). vm_compute. reflexivity.
Defined.

Lemma reachable_gc_suspended_witness :
  gcPercent (main_store (crypto := toy_crypto)) = -1.
Proof.
  apply (reachable_gc_suspended (crypto := toy_crypto) (U := unit) _ tt).
  exact main_store_reachable.
Defined.

Lemma reachable_keys_coherent_witness :
  length (masterKey (main_store (crypto := toy_crypto))) = 32%nat /\
  forall (k : string) (key : list byte),
    keyCache (main_store (crypto := toy_crypto)) !! k = Some key ->
    key = deriveKey (crypto := toy_crypto) (main_store (crypto := toy_crypto)) k /\
    length key = 32%nat.
Proof.
  apply (reachable_keys_coherent (crypto := toy_crypto) (U := unit) _ tt).
  exact main_store_reachable.
Defined.

Lemma reachable_buffers_distinct_witness :
  (forall (k : string) (l : loc),
      dataStore (main_store (crypto := toy_crypto)) !! k = Some l ->
      is_Some (heap (main_store (crypto := toy_crypto)) !! l)) /\
  (forall (k k' : string) (l : loc),
      dataStore (main_store (crypto := toy_crypto)) !! k = Some l ->
      dataStore (main_store (crypto := toy_crypto)) !! k' = Some l -> k = k').
Proof.
  apply (reachable_buffers_distinct (crypto := toy_crypto) (U := unit) _ tt).
  exact main_store_reachable.
Defined.


